(** * generate_structure.py: the project tree renderer

    A shallow embedding of [src/generate_structure.py] and the properties
    of its rendered tree.

    Python's [str] is a sequence of Unicode code points; it is modelled as
    [list N].  The file system is modelled by what [os.listdir] and
    [os.path.isdir] answer for each path the walk visits; every path is
    listed and classified at most once per run, so one finite tree of
    answers describes a run (paths have a bounded length, so even through
    symbolic links the walk sees finitely many of them).

    The interpreter refuses a call once its stack holds
    [RECURSION_LIMIT] frames; [walk_dir] then ends with [RecursionError],
    like any other exception it does not handle.  The script can end with
    an exception before it reaches its [try]: [script] is the whole run,
    [main] the run once the scanning message is out. *)

From Stdlib Require Import Strings.String Strings.Ascii Strings.Byte.
From stdpp Require Import base list sorting gmap.

Local Open Scope N_scope.

(** ** Text *)

(** A Python [str]: its code points, in order. *)
Abbreviation str := (list N) (only parsing).

(** [bytes]: what ends up in a file. *)
Abbreviation bytes := (list byte) (only parsing).

Module Utf8.

(** Continuation byte carrying bits [6*k .. 6*k+5] of [c]. *)
Definition cont (c : N) (k : N) : N :=
  N.lor 0x80 (N.land (N.shiftr c (6 * k)) 0x3F).

(** The codec behind [open(..., encoding="utf-8")] (errors="strict"):
    lone surrogates are refused. *)
Definition encode_char (c : N) : option (list N) :=
  if c <? 0x80 then Some [c]
  else if c <? 0x800 then Some [N.lor 0xC0 (N.shiftr c 6); cont c 0]
  else if c <? 0x10000 then
    if (0xD800 <=? c) && (c <=? 0xDFFF) then None
    else Some [N.lor 0xE0 (N.shiftr c 12); cont c 1; cont c 0]
  else if c <? 0x110000 then
    Some [N.lor 0xF0 (N.shiftr c 18); cont c 2; cont c 1; cont c 0]
  else None.

Definition to_byte (n : N) : byte := byte_of_ascii (ascii_of_N n).

Fixpoint encode (s : str) : option bytes :=
  match s with
  | [] => Some []
  | c :: s' =>
      match encode_char c, encode s' with
      | Some bs, Some rest => Some (map to_byte bs ++ rest)
      | _, _ => None
      end
  end.

(** Decoding of the source file's own literals (the script is declared
    [coding: utf-8]).  [low6 b] is the payload of a continuation byte. *)
Definition low6 (b : N) : N := N.land b 0x3F.

Fixpoint decode_aux (fuel : nat) (bs : list N) : str :=
  match fuel with
  | O => []
  | S fuel' =>
      match bs with
      | [] => []
      | b0 :: r0 =>
          if b0 <? 0x80 then b0 :: decode_aux fuel' r0
          else match r0 with
          | [] => [b0]
          | b1 :: r1 =>
              if b0 <? 0xE0 then
                N.lor (N.shiftl (N.land b0 0x1F) 6) (low6 b1)
                  :: decode_aux fuel' r1
              else match r1 with
              | [] => [b0; b1]
              | b2 :: r2 =>
                  if b0 <? 0xF0 then
                    N.lor (N.shiftl (N.land b0 0x0F) 12)
                      (N.lor (N.shiftl (low6 b1) 6) (low6 b2))
                      :: decode_aux fuel' r2
                  else match r2 with
                  | [] => [b0; b1; b2]
                  | b3 :: r3 =>
                      N.lor (N.shiftl (N.land b0 0x07) 18)
                        (N.lor (N.shiftl (low6 b1) 12)
                           (N.lor (N.shiftl (low6 b2) 6) (low6 b3)))
                        :: decode_aux fuel' r3
                  end
              end
          end
      end
  end.

Definition decode (bs : list N) : str := decode_aux (length bs) bs.

End Utf8.

(** A string literal of the source, as a [str]. *)
Definition u (s : string) : str :=
  Utf8.decode (map N_of_ascii (list_ascii_of_string s)).

(** Python compares [str] values code point by code point; a proper prefix
    is smaller. *)
Fixpoint str_leb (a b : str) : bool :=
  match a, b with
  | [], _ => true
  | _ :: _, [] => false
  | x :: a', y :: b' =>
      if x <? y then true else if y <? x then false else str_leb a' b'
  end.

Definition str_le (a b : str) : Prop := str_leb a b = true.

#[global] Instance str_le_dec : RelDecision str_le.
Proof. intros a b. unfold str_le. apply _. Defined.

(** [sorted(names)]: the ascending rearrangement of [names].  [str_le] is a
    total order ([sorted_unique] below), so the result does not depend on
    the sorting algorithm. *)
Definition sorted (names : list str) : list str := merge_sort str_le names.

(** [sep.join(lines)]. *)
Fixpoint join (sep : str) (lines : list str) : str :=
  match lines with
  | [] => []
  | [l] => l
  | l :: rest => l ++ sep ++ join sep rest
  end.

(** [l * n] on Python lists: a count below one gives the empty list. *)
Definition list_mul {A} (l : list A) (n : Z) : list A :=
  mjoin (replicate (Z.to_nat n) l).

(** ** Configuration *)

Definition IGNORE_LIST : gset str :=
  list_to_set
    [ u ".git"; u ".vscode"; u "__pycache__"; u ".idea"; u "node_modules";
      u "build"; u "dist"; u ".DS_Store"; u "venv"; u ".env";
      u "generate_structure.py"; u "project_structure.txt" ].

Definition OUTPUT_FILENAME : str := u "project_structure.txt".

Definition BRANCH : str := u "├── ".
Definition LAST : str := u "└── ".
Definition BAR_EXT : str := u "│   ".
Definition BLANK_EXT : str := u "    ".
Definition NEWLINE : str := [10].
Definition SLASH : N := 47.

(** ** The file system, as the walk observes it *)

(** The exception classes that can reach the script. *)
Inductive exn : Set :=
| FileNotFoundError
| NotADirectoryError
| PermissionError
| OSError
| UnicodeEncodeError
| RecursionError.

#[global] Instance exn_eq_dec : EqDecision exn.
Proof. solve_decision. Defined.

(** What the operating system answers for one path.
    - [File]: [isdir] is false; listing it raises [NotADirectoryError].
    - [Missing]: nothing there (also a dangling symbolic link): [isdir] is
      false; listing it raises [FileNotFoundError].
    - [Dir entries]: [isdir] is true and [listdir] returns the names of
      [entries], in the operating system's order.
    - [Unlistable e]: [isdir] is true but [listdir] raises [e] (the
      directory vanished after the check, or may not be read). *)
#[warnings="-register-all"]
Inductive node : Type :=
| File
| Missing
| Dir (entries : list (str * node))
| Unlistable (e : exn).

Definition os_listdir (path : node) : exn + list str :=
  match path with
  | File => inl NotADirectoryError
  | Missing => inl FileNotFoundError
  | Dir entries => inr entries.*1
  | Unlistable e => inl e
  end.

Definition os_path_isdir (path : node) : bool :=
  match path with
  | Dir _ | Unlistable _ => true
  | File | Missing => false
  end.

Fixpoint entry_named {A} (item : str) (entries : list (str * A)) : option A :=
  match entries with
  | [] => None
  | (name, n) :: rest =>
      if decide (name = item) then Some n else entry_named item rest
  end.

(** [os.path.join(current_dir, item)]: the path of [item] below
    [current_dir], here the answers found at that path. *)
Definition os_path_join (current_dir : node) (item : str) : node :=
  match current_dir with
  | Dir entries => default Missing (entry_named item entries)
  | _ => Missing
  end.

(** [posixpath.basename]: what follows the last slash. *)
Fixpoint rfind (c : N) (s : str) (i : Z) : Z :=
  match s with
  | [] => (-1)%Z
  | x :: s' =>
      let later := rfind c s' (i + 1)%Z in
      if (0 <=? later)%Z then later else if x =? c then i else (-1)%Z
  end.

Definition os_path_basename (p : str) : str :=
  drop (Z.to_nat (rfind SLASH p 0 + 1)) p.

(** A path handed to [generate_tree]: its absolute, normalised spelling
    ([os.path.abspath]) and the answers found there.  The script hands in
    what [os.getcwd()] returned, an absolute path, which [os.path.abspath]
    only normalises; a relative path, for which it would ask [os.getcwd()]
    again, is not among the locations. *)
Record location : Type := Location {
  os_path_abspath : str;
  at_path : node
}.

(** Nesting depth of the answers: the recursion never goes deeper. *)
Fixpoint height (t : node) : nat :=
  match t with
  | Dir entries => S (foldr (λ e h, height e.2 `max` h)%nat 0%nat entries)
  | _ => 1%nat
  end.

(** ** The interpreter: a list of lines as state, exceptions as results *)

Inductive outcome (A : Type) : Type :=
| Return (a : A)
| Raise (e : exn)
| OutOfFuel.
Arguments Return {A} a.
Arguments Raise {A} e.
Arguments OutOfFuel {A}.

(** A computation that may append to [tree_lines]. *)
Definition M (A : Type) : Type := list str → outcome (A * list str).

#[global] Instance M_ret : MRet M := λ A a lines, Return (a, lines).
#[global] Instance M_bind : MBind M := λ A B f m lines,
  match m lines with
  | Return (a, lines') => f a lines'
  | Raise e => Raise e
  | OutOfFuel => OutOfFuel
  end.

Definition raise {A} (e : exn) : M A := λ _, Raise e.
Definition out_of_fuel {A} : M A := λ _, OutOfFuel.
Definition append (line : str) : M unit := λ lines, Return ((), lines ++ [line]).

Fixpoint for_each {A} (l : list A) (body : A → M unit) : M unit :=
  match l with
  | [] => mret ()
  | x :: rest => body x ;; for_each rest body
  end.

(** ** Script logic *)

(** [item not in IGNORE_LIST]: equality of strings with a member. *)
Definition not_ignored (item : str) : Prop := item ∉ IGNORE_LIST.

Definition pointers (items : list str) : list str :=
  list_mul [BRANCH] (Z.of_nat (length items) - 1) ++ [LAST].

(** The body of the [for pointer, item in zip(pointers, items)] loop;
    [walk] is the recursive call. *)
Definition loop_body (walk : node → str → M unit)
    (current_dir : node) (prefix : str) (it : str * str) : M unit :=
  let '(pointer, item) := it in
  let path := os_path_join current_dir item in
  append (prefix ++ pointer ++ item) ;;
  if os_path_isdir path then
    let extension := if decide (pointer = BRANCH) then BAR_EXT else BLANK_EXT in
    walk path (prefix ++ extension)
  else mret ().

(** [walk_dir(current_dir, prefix)].  Only [FileNotFoundError] is handled
    around the listing; any other exception leaves the function. *)
Fixpoint walk_dir (fuel : nat) (current_dir : node) (prefix : str) : M unit :=
  match fuel with
  | O => out_of_fuel
  | S fuel' =>
      match os_listdir current_dir with
      | inl FileNotFoundError => mret ()
      | inl e => raise e
      | inr names =>
          let items := sorted (filter not_ignored names) in
          for_each (zip (pointers items) items)
            (loop_body (walk_dir fuel') current_dir prefix)
      end
  end.

(** [sys.getrecursionlimit()]: the script leaves it at CPython's default. *)
Definition RECURSION_LIMIT : nat := 1000.

(** The frames on the stack that are not calls of [walk_dir] while its
    deepest call is at work: those of the module, of [main] and of
    [generate_tree] below it, and above it those of [os.path.join] and of
    the helper that [os.path.join] calls. *)
Definition OTHER_FRAMES : nat := 5.

(** How deep [walk_dir] can nest: a call further down is refused with
    [RecursionError], at the latest when it comes to join a path. *)
Definition WALK_DEPTH : nat := (RECURSION_LIMIT - OTHER_FRAMES)%nat.

(** [tree_lines] when [walk_dir(root_dir)] is done, or the exception that
    ended it.  The fuel of [walk_dir] is the room left on the stack;
    running out of it is [RecursionError]. *)
Definition tree_lines (root_dir : location) : outcome (list str) :=
  let project_name := os_path_basename (os_path_abspath root_dir) in
  match
    (append (project_name ++ [SLASH]) ;;
     walk_dir WALK_DEPTH (at_path root_dir) []) []
  with
  | Return (_, lines) => Return lines
  | Raise e => Raise e
  | OutOfFuel => Raise RecursionError
  end.

Definition generate_tree (root_dir : location) : outcome str :=
  match tree_lines root_dir with
  | Return lines => Return (join NEWLINE lines)
  | Raise e => Raise e
  | OutOfFuel => OutOfFuel
  end.

(** ** The driver *)

(** One [print] call. *)
Inductive message : Type :=
| Scanning (name : str)
| Success (file : str)
| PreviewHeader
| Preview (text : str)
| PreviewFooter
| ErrorOccurred (e : exn).

(** The process and its surroundings: the current working directory, the
    contents of the regular files in it, how the storage behaves when the
    output file is opened for writing and when data is written to it (the
    exception and how many bytes got through), and the console. *)
Record world : Type := World {
  cwd : location;
  disk : gmap str bytes;
  open_fault : option exn;
  write_fault : option (exn * nat);
  stdout : list message
}.

Definition print (m : message) (w : world) : world :=
  World (cwd w) (disk w) (open_fault w) (write_fault w) (stdout w ++ [m]).

Definition store (name : str) (data : bytes) (w : world) : world :=
  World (cwd w) (<[name := data]> (disk w)) (open_fault w) (write_fault w)
    (stdout w).

(** [with open(name, "w", encoding="utf-8") as f: f.write(text)].
    Opening truncates; the text is encoded as a whole before any byte is
    written.  The script runs on a POSIX system (see its first line), where
    text mode leaves line ends alone. *)
Definition write_text (name : str) (text : str) (w : world) : option exn * world :=
  match open_fault w with
  | Some e => (Some e, w)
  | None =>
      match Utf8.encode text with
      | None => (Some UnicodeEncodeError, store name [] w)
      | Some data =>
          match write_fault w with
          | Some (e, n) => (Some e, store name (take n data) w)
          | None => (None, store name data w)
          end
      end
  end.

(** [main()], in a run where [os.getcwd()] has returned [cwd w] and the
    console takes what is printed ([script] has the other runs).
    Everything from [generate_tree] to the last [print] of the preview sits
    in one [try], whose handler takes every exception.  The last branch is
    never taken ([generate_tree_total]). *)
Definition main (w : world) : world :=
  let project_root := cwd w in
  let w := print (Scanning (os_path_basename (os_path_abspath project_root))) w in
  match generate_tree project_root with
  | Return project_tree =>
      match write_text OUTPUT_FILENAME project_tree w with
      | (None, w) =>
          let w := print (Success OUTPUT_FILENAME) w in
          let w := print PreviewHeader w in
          let w := print (Preview project_tree) w in
          print PreviewFooter w
      | (Some e, w) => print (ErrorOccurred e) w
      end
  | Raise e => print (ErrorOccurred e) w
  | OutOfFuel => print (ErrorOccurred RecursionError) w
  end.

(** What the run started in [w] prints. *)
Definition printed (w : world) : list message :=
  drop (length (stdout w)) (stdout (main w)).

Definition reports_success (w : world) : Prop :=
  Success OUTPUT_FILENAME ∈ printed w.

Definition reports_failure (w : world) : Prop :=
  ∃ e, ErrorOccurred e ∈ printed w.

(** How a run starts: what [os.getcwd()] raises, if anything (the working
    directory was removed); what printing the scanning message raises, if
    anything (the console cannot encode it, or is closed); and the
    surroundings.  A console that takes the scanning message is taken to
    take the later ones. *)
Record launch : Type := Launch {
  getcwd_fault : option exn;
  first_print_fault : option exn;
  surroundings : world
}.

(** The script run as a program ([main()] called at the end of the
    module).  The call of [os.getcwd()] and the first [print] stand before
    the [try]: an exception of either leaves [main()] and ends the run,
    with nothing printed and nothing written.  The result is the
    exception that ended the run, if any, and the surroundings left
    behind. *)
Definition script (l : launch) : option exn * world :=
  match getcwd_fault l with
  | Some e => (Some e, surroundings l)
  | None =>
      match first_print_fault l with
      | Some e => (Some e, surroundings l)
      | None => (None, main (surroundings l))
      end
  end.

(** ** Specification vocabulary *)

(** The members of a list, each with the answer to: is it the final one? *)
Fixpoint mark_last {A} (l : list A) : list (A * bool) :=
  match l with
  | [] => []
  | [x] => [(x, true)]
  | x :: rest => (x, false) :: mark_last rest
  end.

(** The filtered, sorted children of a directory. *)
Definition items_of (d : node) : list str :=
  match os_listdir d with
  | inr names => sorted (filter not_ignored names)
  | inl _ => []
  end.

(** An entry of the rendered tree: the directories above it below the root,
    outermost first, each with whether it was the final child of its own
    directory; whether the entry itself is the final child; its name. *)
Record row : Type := Row {
  ancestors : list (str * bool);
  is_last : bool;
  row_name : str
}.

Definition below (item : str) (last : bool) (r : row) : row :=
  Row ((item, last) :: ancestors r) (is_last r) (row_name r).

(** The entries the rendering shows, in its order: the filtered, sorted
    children of each directory, each followed by what is below it. *)
Fixpoint rows (t : node) : list row :=
  match t with
  | Dir entries =>
      let subrows := map (λ e, (e.1, rows e.2)) entries in
      mark_last (sorted (filter not_ignored entries.*1)) ≫= λ il,
        Row [] il.2 il.1
          :: map (below il.1 il.2) (default [] (entry_named il.1 subrows))
  | _ => []
  end.

Definition pointer_of (last : bool) : str := if last then LAST else BRANCH.
Definition extension_of (last : bool) : str :=
  if last then BLANK_EXT else BAR_EXT.

Definition indent (r : row) : str :=
  mjoin (map (λ a, extension_of a.2) (ancestors r)).

Definition render (prefix : str) (r : row) : str :=
  prefix ++ indent r ++ pointer_of (is_last r) ++ row_name r.

(** The names from the root down to the entry. *)
Definition row_path (r : row) : list str := (ancestors r).*1 ++ [row_name r].

(** Every entry below [t], found by plain recursive descent in the
    operating system's order, as the names leading to it. *)
Fixpoint reachable (t : node) : list (list str) :=
  match t with
  | Dir entries =>
      entries ≫= λ e, [e.1] :: map (cons e.1) (reachable e.2)
  | _ => []
  end.

Definition ignored (item : str) : bool := bool_decide (item ∈ IGNORE_LIST).

(** Every listing the walk of [t] performs returns or raises
    [FileNotFoundError]. *)
Fixpoint silent (t : node) : bool :=
  match t with
  | File => false
  | Missing => true
  | Dir entries =>
      forallb (λ e, ignored e.1 || negb (os_path_isdir e.2) || silent e.2) entries
  | Unlistable e => bool_decide (e = FileNotFoundError)
  end.

(** Every listing in [t] succeeds. *)
Fixpoint listable (t : node) : bool :=
  match t with
  | File | Missing | Unlistable _ => false
  | Dir entries =>
      forallb (λ e, negb (os_path_isdir e.2) || listable e.2) entries
  end.

(** No name of [IGNORE_LIST] occurs in [t]. *)
Fixpoint clean (t : node) : bool :=
  match t with
  | Dir entries => forallb (λ e, negb (ignored e.1) && clean e.2) entries
  | _ => true
  end.

(** A directory holds no name twice. *)
Fixpoint distinct (t : node) : bool :=
  match t with
  | Dir entries =>
      bool_decide (NoDup entries.*1) && forallb (λ e, distinct e.2) entries
  | _ => true
  end.

(** [t] with every entry named in [IGNORE_LIST] deleted, with all below it. *)
Fixpoint prune (t : node) : node :=
  match t with
  | Dir entries =>
      Dir (filter (λ e, not_ignored e.1) (map (λ e, (e.1, prune e.2)) entries))
  | _ => t
  end.

(** The answers found by following [path] down from [t]. *)
Definition resolve (t : node) (path : list str) : node :=
  foldl os_path_join t path.

(** [item] is the final one of the filtered, sorted children of [d]. *)
Definition final_in (d : node) (item : str) : Prop :=
  last (items_of d) = Some item.

(** The names from the root down to an entry, each with its mark. *)
Definition lineage (r : row) : list (str * bool) :=
  ancestors r ++ [(row_name r, is_last r)].

(** The vertical bar that continues a branch, U+2502. *)
Definition CONTINUATION_BAR : N := 0x2502%N.

(** What one round of the loop appends: the line of the item, then the
    rows below it. *)
Definition round_rows (d : node) (il : str * bool) : list row :=
  Row [] il.2 il.1 :: map (below il.1 il.2) (rows (os_path_join d il.1)).

(** The first exception among those [fails] gives for the members of a
    list, in their order. *)
Definition first_raised {A} (fails : A → option exn) (l : list A) : option exn :=
  foldr (λ x rest, match fails x with Some e => Some e | None => rest end)
    None l.

(** The exception that ends the walk of [t], if one does: that of the
    first listing, in the order of the walk, that raises anything but
    [FileNotFoundError]. *)
Fixpoint raised (t : node) : option exn :=
  match t with
  | File => Some NotADirectoryError
  | Missing => None
  | Dir entries =>
      let below :=
        map (λ e, (e.1, if os_path_isdir e.2 then raised e.2 else None))
          entries in
      first_raised (λ item, default None (entry_named item below))
        (sorted (filter not_ignored entries.*1))
  | Unlistable e => if decide (e = FileNotFoundError) then None else Some e
  end.

(** The first line: the name of the root, with a slash. *)
Definition header (root_dir : location) : str :=
  os_path_basename (os_path_abspath root_dir) ++ [SLASH].

(** What a successful run prints after the scanning message. *)
Definition success_messages (text : list N) : list message :=
  [Success OUTPUT_FILENAME; PreviewHeader; Preview text; PreviewFooter].

(** What one child contributes when the loop of [walk_dir (S fuel)] over
    [d] reaches it: its own line, then everything the recursive call for it
    appends. *)
Definition child_block (fuel : nat) (d : node) (prefix item pointer : str)
    (block : list str) : Prop :=
  ∃ sub,
    block = (prefix ++ pointer ++ item) :: sub ∧
    if os_path_isdir (os_path_join d item) then
      walk_dir fuel (os_path_join d item)
        (prefix ++ if decide (pointer = BRANCH) then BAR_EXT else BLANK_EXT)
        []
      = Return ((), sub)
    else sub = [].

(** ** Vocabulary for the further properties *)

(** The result of a computation started with [lines], had it appended
    [prefix ++ l] for every line [l] that [reference] appends when started
    with nothing; an exception of [reference] is passed on. *)
Definition shifted (prefix : str) (lines : list str)
    (reference : outcome (unit * list str)) : outcome (unit * list str) :=
  match reference with
  | Return (_, sub) => Return ((), lines ++ map (app prefix) sub)
  | Raise e => Raise e
  | OutOfFuel => OutOfFuel
  end.

(** A code point the strict UTF-8 codec accepts: a Unicode scalar value. *)
Definition scalar (c : N) : bool :=
  (c <? 0x110000) && negb ((0xD800 <=? c) && (c <=? 0xDFFF)).


(** Two paths about which the operating system answers alike, down to
    depth [n]: the same answer to [isdir], the same exception from
    [listdir] or the same names in whatever order, and alike answers below
    every listed name. *)
Fixpoint alike (n : nat) (t1 t2 : node) : Prop :=
  match n with
  | O => True
  | S n' =>
      os_path_isdir t1 = os_path_isdir t2 ∧
      match os_listdir t1, os_listdir t2 with
      | inl e1, inl e2 => e1 = e2
      | inr names1, inr names2 =>
          names1 ≡ₚ names2 ∧
          ∀ item, item ∈ names1 →
            alike n' (os_path_join t1 item) (os_path_join t2 item)
      | _, _ => False
      end
  end.

(** A child below whose line the rendering shows nothing and raises
    nothing: not a directory, or a directory whose listing raises
    [FileNotFoundError] or holds ignored names only. *)
Definition hollow (t : node) : bool :=
  negb (os_path_isdir t) ||
  match os_listdir t with
  | inr names => bool_decide (filter not_ignored names = [])
  | inl e => bool_decide (e = FileNotFoundError)
  end.

(** The value of a stored byte, and stored bytes read back as text. *)
Definition byte_value (b : byte) : N := N_of_ascii (ascii_of_byte b).

Definition decode_bytes (data : bytes) : str :=
  Utf8.decode (map byte_value data).

(** How many bytes a sequence takes, going by its first byte. *)
Definition lead_class (b0 : N) : nat :=
  if b0 <? 0x80 then 1%nat
  else if b0 <? 0xE0 then 2%nat
  else if b0 <? 0xF0 then 3%nat
  else 4%nat.

(** The check that one code point survives the codec: what it is encoded
    to are bytes, as many as the first of them announces, and they decode
    to it. *)
Definition round_trips (c : N) : bool :=
  match Utf8.encode_char c with
  | None => true
  | Some bs =>
      forallb (λ b, b <? 256) bs &&
      bool_decide (length bs = lead_class (hd 0 bs)) &&
      bool_decide (Utf8.decode_aux 1 bs = [c])
  end.

(** [f] holds from [lo] up to, not including, [lo + 2 ^ d]. *)
Fixpoint all_from (d : nat) (lo : N) (f : N → bool) : bool :=
  match d with
  | O => f lo
  | S d' => all_from d' lo f && all_from d' (lo + 2 ^ N.of_nat d') f
  end.

(** ** Sample projects *)

(** The example of the specification. *)
Definition example_entries : list (list N * node) :=
  [ (u "b.txt", File); (u "a.txt", File);
    (u "sub", Dir [(u "c.txt", File)]) ].

Definition example_text : list N :=
  join NEWLINE
    [ u "root/"; u "├── a.txt"; u "├── b.txt"; u "└── sub";
      u "    └── c.txt" ].

(** A project whose directory [locked] may not be read. *)
Definition locked_root : location :=
  Location (u "/srv/proj")
    (Dir [(u "locked", Unlistable PermissionError); (u "a.txt", File)]).

Definition locked_world : world := World locked_root ∅ None None [].

(** A project one of whose directories vanished before it was listed. *)
Definition vanished_root : location :=
  Location (u "/srv/proj")
    (Dir [(u "gone", Unlistable FileNotFoundError); (u "z.txt", File)]).

(** [n] directories, each the only entry of the one before, below a root. *)
Fixpoint chain (n : nat) : node :=
  match n with
  | O => Dir []
  | S n' => Dir [(u "d", chain n')]
  end.

(** A project nested deeper than the stack allows. *)
Definition deep_root : location := Location (u "/srv/deep") (chain 1100).

(** A working directory that was removed after the script started:
    nothing is found there, and no file can be created in it. *)
Definition removed_world : world :=
  World (Location (u "/tmp/scratch") Missing) ∅ (Some FileNotFoundError) None [].

(** A working directory that already holds an output file and a note. *)
Definition stale_world : world :=
  World (Location (u "/home/me/root") (Dir example_entries))
    (<[OUTPUT_FILENAME := list_byte_of_string "old"]>
       (<[u "notes.txt" := list_byte_of_string "keep"]> ∅))
    None None [].

(** A project with a [.git] directory, a nested [build] directory, and
    names that only resemble ignored ones. *)
Definition cluttered_root : location :=
  Location (u "/srv/app")
    (Dir [ (u ".git", Dir [(u "HEAD", File); (u "objects", Unlistable PermissionError)]);
           (u ".GIT", File);
           (u "src", Dir [ (u "build", Dir [(u "out.o", File)]);
                           (u "builds", File);
                           (u "main.py", File) ]);
           (u "dist.txt", File) ]).

Local Close Scope N_scope.

(** * Properties *)

(** ** Literals, the codec and the path helpers at work *)

Section literals.

Example BRANCH_code_points : BRANCH = [0x251C; 0x2500; 0x2500; 0x20]%N.
Proof. reflexivity. Qed.

Example LAST_code_points : LAST = [0x2514; 0x2500; 0x2500; 0x20]%N.
Proof. reflexivity. Qed.

Example BAR_EXT_code_points : BAR_EXT = [CONTINUATION_BAR; 0x20; 0x20; 0x20]%N.
Proof. reflexivity. Qed.

Example BLANK_EXT_code_points : BLANK_EXT = [0x20; 0x20; 0x20; 0x20]%N.
Proof. reflexivity. Qed.

Example encode_branch_line :
  Utf8.encode (BRANCH ++ u "a.txt")
  = Some (list_byte_of_string "├── a.txt").
Proof. reflexivity. Qed.

Example encode_four_bytes :
  Utf8.encode [0x1F50D%N] = Some (list_byte_of_string "🔍").
Proof. reflexivity. Qed.

(** A name with an undecodable byte reaches Python as a lone surrogate,
    which the strict codec refuses. *)
Example encode_surrogate : Utf8.encode (u "caf" ++ [0xDCE9%N]) = None.
Proof. reflexivity. Qed.

Example basename_of_path : os_path_basename (u "/home/me/root") = u "root".
Proof. reflexivity. Qed.

Example basename_of_slash : os_path_basename (u "/") = [].
Proof. reflexivity. Qed.

Example basename_without_slash : os_path_basename (u "root") = u "root".
Proof. reflexivity. Qed.

Example list_mul_twice : list_mul [BRANCH] 2 = [BRANCH; BRANCH].
Proof. reflexivity. Qed.

Example list_mul_below_one : list_mul [BRANCH] 0 = [] ∧ list_mul [BRANCH] (-1) = [].
Proof. split; reflexivity. Qed.

Example order_of_names :
  sorted [u "b"; u "a.txt"; u "a"; u "B"; u "ab"; u "_x"]
  = [u "B"; u "_x"; u "a"; u "a.txt"; u "ab"; u "b"].
Proof. reflexivity. Qed.

Example near_misses_are_kept :
  ignored (u ".git") = true ∧ ignored (u ".GIT") = false ∧
  ignored (u "build") = true ∧ ignored (u "builds") = false ∧
  ignored (u "src/build") = false ∧ ignored (u "venv ") = false.
Proof. by vm_compute. Qed.

End literals.

(** ** The order on names *)

Section order.

Lemma str_leb_total (a b : str) : str_leb a b = true ∨ str_leb b a = true.
Proof.
  revert b. induction a as [|x a IH]; intros [|y b]; simpl; auto.
  destruct (N.ltb_spec x y), (N.ltb_spec y x); auto; lia.
Qed.

Lemma str_leb_trans (a b c : str) :
  str_leb a b = true → str_leb b c = true → str_leb a c = true.
Proof.
  revert b c. induction a as [|x a IH]; intros [|y b] [|z c]; simpl; auto;
    try discriminate.
  destruct (N.ltb_spec x y), (N.ltb_spec y x), (N.ltb_spec y z),
    (N.ltb_spec z y), (N.ltb_spec x z), (N.ltb_spec z x);
    try discriminate; try lia; eauto.
Qed.

Lemma str_leb_antisym (a b : str) :
  str_leb a b = true → str_leb b a = true → a = b.
Proof.
  revert b. induction a as [|x a IH]; intros [|y b]; simpl; auto;
    try discriminate.
  destruct (N.ltb_spec x y), (N.ltb_spec y x); try discriminate; try lia.
  intros Hab Hba. f_equal; [lia | auto].
Qed.

#[global] Instance str_le_total : Total str_le.
Proof. intros a b. apply str_leb_total. Qed.

#[global] Instance str_le_trans : Transitive str_le.
Proof. intros a b c. apply str_leb_trans. Qed.

#[global] Instance str_le_antisym : AntiSymm (=) str_le.
Proof. intros a b. apply str_leb_antisym. Qed.

Lemma sorted_Sorted (names : list str) : Sorted str_le (sorted names).
Proof. apply Sorted_merge_sort, _. Qed.

Lemma sorted_Permutation (names : list str) : sorted names ≡ₚ names.
Proof. apply merge_sort_Permutation. Qed.

(** Any two ascending rearrangements agree: the order of a listing does
    not matter, and neither does the sorting algorithm. *)
Lemma sorted_unique (l1 l2 : list str) : l1 ≡ₚ l2 → sorted l1 = sorted l2.
Proof.
  intros Hp. apply (Sorted_unique str_le); auto using sorted_Sorted.
  by rewrite !sorted_Permutation.
Qed.

Lemma elem_of_sorted (x : str) (names : list str) :
  x ∈ sorted names ↔ x ∈ names.
Proof. by rewrite sorted_Permutation. Qed.

Lemma length_sorted (names : list str) :
  length (sorted names) = length names.
Proof. by rewrite sorted_Permutation. Qed.

End order.

(** ** Pointers *)

Section pointers.

Lemma list_mul_singleton {A} (x : A) (n : Z) :
  list_mul [x] n = replicate (Z.to_nat n) x.
Proof.
  unfold list_mul. induction (Z.to_nat n) as [|k IH]; simpl; [done|].
  by rewrite IH.
Qed.

Lemma pointers_nil : pointers [] = [LAST].
Proof. reflexivity. Qed.

Lemma pointers_cons (x y : str) (l : list str) :
  pointers (x :: y :: l) = BRANCH :: pointers (y :: l).
Proof.
  unfold pointers. rewrite !list_mul_singleton.
  replace (Z.to_nat (Z.of_nat (length (x :: y :: l)) - 1))
    with (S (Z.to_nat (Z.of_nat (length (y :: l)) - 1)))
    by (simpl length; lia).
  done.
Qed.

Lemma LAST_neq_BRANCH : LAST ≠ BRANCH.
Proof. discriminate. Qed.

(** The loop pairs each item with [LAST] if it is the final one and
    with [BRANCH] otherwise. *)
Lemma zip_pointers (items : list str) :
  zip (pointers items) items
  = map (λ il, (pointer_of il.2, il.1)) (mark_last items).
Proof.
  induction items as [|x [|y l] IH]; [done..|].
  rewrite pointers_cons. change (mark_last (x :: y :: l))
    with ((x, false) :: mark_last (y :: l)).
  rewrite map_cons, <- IH. done.
Qed.

Lemma mark_last_fst {A} (l : list A) : (mark_last l).*1 = l.
Proof.
  induction l as [|x [|y l] IH]; [done..|].
  change (mark_last (x :: y :: l)) with ((x, false) :: mark_last (y :: l)).
  by rewrite fmap_cons, IH.
Qed.

Lemma length_mark_last {A} (l : list A) : length (mark_last l) = length l.
Proof. by rewrite <- (mark_last_fst l) at 2; rewrite length_fmap. Qed.

Lemma mark_last_lookup {A} (l : list A) (i : nat) (x : A) :
  l !! i = Some x →
  mark_last l !! i = Some (x, bool_decide (S i = length l)).
Proof.
  revert i. induction l as [|y [|z l] IH]; intros i Hi; [done| |].
  - destruct i; [|done]. by injection Hi as ->.
  - destruct i as [|i].
    + by injection Hi as ->.
    + change (mark_last (z :: l) !! i
              = Some (x, bool_decide (S (S i) = S (length (z :: l))))).
      rewrite (IH i Hi). do 2 f_equal.
      apply bool_decide_ext. lia.
Qed.

Lemma elem_of_mark_last {A} (l : list A) (x : A) (b : bool) :
  (x, b) ∈ mark_last l → x ∈ l.
Proof.
  intros H. rewrite <- (mark_last_fst l).
  apply list_elem_of_fmap. by exists (x, b).
Qed.

(** With no name twice, the mark says exactly: this is the last name. *)
Lemma mark_last_final {A} (l : list A) (x : A) (b : bool) :
  NoDup l → (x, b) ∈ mark_last l → (b = true ↔ last l = Some x).
Proof.
  intros Hnd [i Hi]%list_elem_of_lookup.
  assert (l !! i = Some x) as Hx.
  { rewrite <- (mark_last_fst l), list_lookup_fmap, Hi. done. }
  rewrite (mark_last_lookup _ _ _ Hx) in Hi. injection Hi as <-.
  rewrite last_lookup, bool_decide_eq_true. split.
  - intros Hl. by rewrite <- Hl.
  - intros Hl. assert (i = pred (length l)) by eauto using NoDup_lookup.
    apply lookup_lt_Some in Hx. lia.
Qed.

End pointers.

(** ** The interpreter *)

Section interpreter.

Lemma bind_append (line : str) (k : M unit) (lines : list str) :
  (append line ;; k) lines = k (lines ++ [line]).
Proof. reflexivity. Qed.

Lemma for_each_cons {A} (x : A) (l : list A) (body : A → M unit) lines :
  for_each (x :: l) body lines
  = match body x lines with
    | Return (_, lines') => for_each l body lines'
    | Raise e => Raise e
    | OutOfFuel => OutOfFuel
    end.
Proof.
  change (for_each (x :: l) body lines)
    with ((body x ;; for_each l body) lines).
  unfold mbind, M_bind. by destruct (body x lines) as [[[] ?]| |].
Qed.

Lemma for_each_ext {A} (l : list A) (f g : A → M unit) lines :
  (∀ x ls, x ∈ l → f x ls = g x ls) →
  for_each l f lines = for_each l g lines.
Proof.
  revert lines. induction l as [|x l IH]; intros lines Hfg; [done|].
  rewrite !for_each_cons, Hfg by left.
  destruct (g x lines) as [[[] ?]| |]; [|done..].
  apply IH. intros y ls Hy. apply Hfg. by right.
Qed.

(** A loop whose every round only appends, appends the rounds' lines in
    the order of the rounds. *)
Lemma for_each_collect {A} (l : list A) (body : A → M unit)
    (out : A → list str) lines :
  (∀ x ls, x ∈ l → body x ls = Return ((), ls ++ out x)) →
  for_each l body lines = Return ((), lines ++ (l ≫= out)).
Proof.
  revert lines. induction l as [|x l IH]; intros lines Hb.
  - simpl. by rewrite app_nil_r.
  - rewrite for_each_cons, Hb by left. rewrite IH.
    + by rewrite bind_cons, app_assoc.
    + intros y ls Hy. apply Hb. by right.
Qed.

Lemma for_each_fuel {A} (l : list A) (body : A → M unit) lines :
  (∀ x ls, x ∈ l → body x ls ≠ OutOfFuel) →
  for_each l body lines ≠ OutOfFuel.
Proof.
  revert lines. induction l as [|x l IH]; intros lines Hb; [done|].
  rewrite for_each_cons. specialize (Hb x lines (list_elem_of_here _ _)) as Hx.
  destruct (body x lines) as [[[] ?]| |]; [|done..].
  apply IH. intros y ls Hy. apply Hb. by right.
Qed.

End interpreter.

(** ** Paths and depth *)

Section paths.

Lemma entry_named_elem {A} (item : str) (entries : list (str * A)) (n : A) :
  entry_named item entries = Some n → (item, n) ∈ entries.
Proof.
  induction entries as [|[nm x] rest IH]; [done|]. simpl.
  destruct (decide (nm = item)) as [->|].
  - intros [= ->]. left.
  - intros H. right. auto.
Qed.

Lemma entry_named_fmap {A B} (f : A → B) (item : str)
    (entries : list (str * A)) :
  entry_named item (map (λ e, (e.1, f e.2)) entries)
  = f <$> entry_named item entries.
Proof.
  induction entries as [|[nm x] rest IH]; [done|]. simpl.
  by destruct (decide (nm = item)).
Qed.

Lemma entry_named_NoDup {A} (item : str) (entries : list (str * A)) (n : A) :
  NoDup entries.*1 → (item, n) ∈ entries → entry_named item entries = Some n.
Proof.
  induction entries as [|[nm x] rest IH]; [by intros _ ?%elem_of_nil|].
  rewrite fmap_cons, NoDup_cons. simpl. intros [Hnm Hnd] Hin.
  apply elem_of_cons in Hin as [[= -> ->]|Hin].
  - by rewrite decide_True.
  - rewrite decide_False; [auto|]. intros ->. apply Hnm.
    apply list_elem_of_fmap. by exists (item, n).
Qed.

Lemma entry_named_None {A} (item : str) (entries : list (str * A)) :
  item ∉ entries.*1 → entry_named item entries = None.
Proof.
  induction entries as [|[nm x] rest IH]; [done|].
  rewrite fmap_cons, not_elem_of_cons. simpl. intros [Hne Hin].
  rewrite decide_False by done. auto.
Qed.

(** Whatever [isdir] accepts below a directory is one of its entries. *)
Lemma isdir_join (t : node) (item : str) :
  os_path_isdir (os_path_join t item) = true →
  ∃ entries, t = Dir entries ∧ (item, os_path_join t item) ∈ entries.
Proof.
  destruct t as [| |entries|e]; try discriminate. simpl.
  destruct (entry_named item entries) as [n|] eqn:E; [|discriminate].
  intros _. exists entries. split; [done|]. by apply entry_named_elem.
Qed.

Lemma height_pos (t : node) : 1 ≤ height t.
Proof. destruct t; simpl; lia. Qed.

Lemma height_entry (entries : list (str * node)) (e : str * node) :
  e ∈ entries → height e.2 < height (Dir entries).
Proof.
  simpl. induction 1 as [e l|e e' l _ IH]; simpl; lia.
Qed.

Lemma height_child (t : node) (item : str) :
  os_path_isdir (os_path_join t item) = true →
  height (os_path_join t item) < height t.
Proof.
  intros (entries & -> & Hin)%isdir_join.
  apply (height_entry _ _ Hin).
Qed.

(** More fuel than the depth changes nothing. *)
Lemma walk_dir_fuel (f1 f2 : nat) (t : node) (prefix : str) lines :
  height t ≤ f1 → height t ≤ f2 →
  walk_dir f1 t prefix lines = walk_dir f2 t prefix lines.
Proof.
  revert f2 t prefix lines.
  induction f1 as [|f1 IH]; intros f2 t prefix lines H1 H2.
  { pose proof (height_pos t). lia. }
  destruct f2 as [|f2]; [pose proof (height_pos t); lia|].
  simpl. destruct (os_listdir t) as [e|names]; [done|].
  apply for_each_ext. intros [pointer item] ls _.
  unfold loop_body. rewrite !bind_append.
  destruct (os_path_isdir _) eqn:Hd; [|done].
  apply height_child in Hd. apply IH; lia.
Qed.

(** The depth is fuel enough. *)
Lemma walk_dir_enough (fuel : nat) (t : node) (prefix : str) lines :
  height t ≤ fuel → walk_dir fuel t prefix lines ≠ OutOfFuel.
Proof.
  revert t prefix lines.
  induction fuel as [|fuel IH]; intros t prefix lines Hh.
  { pose proof (height_pos t). lia. }
  simpl. destruct (os_listdir t) as [[]|names]; try done.
  apply for_each_fuel. intros [pointer item] ls _.
  unfold loop_body. rewrite bind_append.
  destruct (os_path_isdir _) eqn:Hd; [|done].
  apply height_child in Hd. apply IH; lia.
Qed.

(** Running out of stack is an exception like any other. *)
Lemma tree_lines_total (root_dir : location) :
  tree_lines root_dir ≠ OutOfFuel.
Proof.
  unfold tree_lines. rewrite bind_append.
  by destruct (walk_dir _ _ _ _) as [[[] ?]| |].
Qed.

Lemma WALK_DEPTH_eq : WALK_DEPTH = S (S 993).
Proof. reflexivity. Qed.

(** A visit whose listing raises ends there. *)
Lemma walk_dir_listing_fails (fuel : nat) (t : node) (prefix : str) lines
    (e : exn) :
  os_listdir t = inl e →
  walk_dir (S fuel) t prefix lines
  = if decide (e = FileNotFoundError) then Return ((), lines) else Raise e.
Proof. intros Hl. simpl. rewrite Hl. by destruct e. Qed.

Lemma generate_tree_total (root_dir : location) :
  generate_tree root_dir ≠ OutOfFuel.
Proof.
  unfold generate_tree. pose proof (tree_lines_total root_dir).
  by destruct (tree_lines root_dir).
Qed.

End paths.

(** ** The walk renders the rows *)

Section rendering.

Lemma for_each_fmap {A B} (g : A → B) (l : list A) (body : B → M unit) lines :
  for_each (map g l) body lines = for_each l (body ∘ g) lines.
Proof.
  revert lines. induction l as [|x l IH]; intros lines; [done|].
  rewrite map_cons, !for_each_cons. simpl.
  by destruct (body (g x) lines) as [[[] ?]| |].
Qed.

Lemma fmap_bind {A B C} (g : B → C) (f : A → list B) (l : list A) :
  g <$> (l ≫= f) = l ≫= λ x, g <$> f x.
Proof.
  induction l as [|x l IH]; [done|]. by rewrite !bind_cons, fmap_app, IH.
Qed.

Lemma rows_Dir (entries : list (str * node)) :
  rows (Dir entries)
  = mark_last (items_of (Dir entries)) ≫= λ il,
      Row [] il.2 il.1
        :: map (below il.1 il.2) (rows (os_path_join (Dir entries) il.1)).
Proof.
  change (rows (Dir entries)) with
    (mark_last (sorted (filter not_ignored entries.*1)) ≫= λ il,
       Row [] il.2 il.1
         :: map (below il.1 il.2)
              (default []
                 (entry_named il.1 (map (λ e, (e.1, rows e.2)) entries)))).
  apply list_bind_ext; [|done]. intros [item last]. simpl.
  rewrite entry_named_fmap. by destruct (entry_named item entries).
Qed.

Lemma rows_not_isdir (t : node) : os_path_isdir t = false → rows t = [].
Proof. by destruct t. Qed.

Lemma render_below (prefix item : str) (last : bool) (r : row) :
  render prefix (below item last r) = render (prefix ++ extension_of last) r.
Proof. unfold render, indent. simpl. by rewrite <- !app_assoc. Qed.

Lemma extension_of_pointer (last : bool) :
  (if decide (pointer_of last = BRANCH) then BAR_EXT else BLANK_EXT)
  = extension_of last.
Proof. by destruct last. Qed.

Lemma elem_of_items_of (d : node) (item : str) :
  item ∈ items_of d →
  not_ignored item ∧ ∃ names, os_listdir d = inr names ∧ item ∈ names.
Proof.
  unfold items_of. destruct (os_listdir d) as [e|names].
  - by intros ?%elem_of_nil.
  - rewrite elem_of_sorted, list_elem_of_filter. intros [? ?]. eauto.
Qed.

Lemma ignored_false (item : str) : not_ignored item → ignored item = false.
Proof. intros H. by apply bool_decide_eq_false. Qed.

Lemma silent_child (entries : list (str * node)) (item : str) :
  silent (Dir entries) = true →
  item ∈ items_of (Dir entries) →
  os_path_isdir (os_path_join (Dir entries) item) = true →
  silent (os_path_join (Dir entries) item) = true.
Proof.
  intros Hs [Hni _]%elem_of_items_of Hd.
  destruct (isdir_join _ _ Hd) as (entries' & [= <-] & Hin).
  remember (os_path_join (Dir entries) item) as child.
  simpl in Hs. apply Is_true_true, forallb_True in Hs.
  rewrite Forall_forall in Hs. specialize (Hs _ Hin). simpl in Hs.
  rewrite (ignored_false _ Hni), Hd in Hs. simpl in Hs.
  by apply Is_true_true.
Qed.

(** The refinement: on a silent tree the walk appends exactly the
    rendering of [rows], and returns. *)
Lemma walk_dir_rows (fuel : nat) (t : node) (prefix : str) lines :
  silent t = true → height t ≤ fuel →
  walk_dir fuel t prefix lines
  = Return ((), lines ++ map (render prefix) (rows t)).
Proof.
  revert t prefix lines.
  induction fuel as [|fuel IH]; intros t prefix lines Hs Hh.
  { pose proof (height_pos t). lia. }
  destruct t as [| |entries|e]; [done| | |].
  - simpl. by rewrite app_nil_r.
  - change (walk_dir (S fuel) (Dir entries) prefix lines) with
      (for_each (zip (pointers (items_of (Dir entries)))
                   (items_of (Dir entries)))
         (loop_body (walk_dir fuel) (Dir entries) prefix) lines).
    rewrite zip_pointers, for_each_fmap, rows_Dir.
    change (map (render prefix) ?l) with (render prefix <$> l).
    rewrite fmap_bind.
    apply for_each_collect. intros [item last] ls Hin.
    apply elem_of_mark_last in Hin.
    unfold compose, loop_body. simpl fst; simpl snd.
    rewrite bind_append, extension_of_pointer.
    destruct (os_path_isdir _) eqn:Hd.
    + rewrite IH.
      * rewrite fmap_cons, <- app_assoc. do 3 f_equal.
        change (map ?f ?l) with (f <$> l).
        rewrite <- list_fmap_compose.
        change ([?x] ++ ?l) with (x :: l). f_equal.
        apply list_fmap_ext.
        intros i r _. simpl. by rewrite render_below.
      * by apply silent_child.
      * apply height_child in Hd. lia.
    + rewrite (rows_not_isdir _ Hd). done.
  - simpl in Hs. apply bool_decide_eq_true in Hs as ->.
    simpl. by rewrite app_nil_r.
Qed.

Lemma tree_lines_rows (root_dir : location) :
  silent (at_path root_dir) = true →
  height (at_path root_dir) ≤ WALK_DEPTH →
  tree_lines root_dir
  = Return (header root_dir :: map (render []) (rows (at_path root_dir))).
Proof.
  intros Hs Hh. unfold tree_lines. rewrite bind_append.
  by rewrite walk_dir_rows.
Qed.

Lemma generate_tree_rows (root_dir : location) :
  silent (at_path root_dir) = true →
  height (at_path root_dir) ≤ WALK_DEPTH →
  generate_tree root_dir
  = Return (join NEWLINE
      (header root_dir :: map (render []) (rows (at_path root_dir)))).
Proof. intros Hs Hh. unfold generate_tree. by rewrite tree_lines_rows. Qed.

End rendering.

(** ** Whatever the walk returns is the rendering of the rows *)

Section returns.

Lemma for_each_Return {A} (l : list A) (body : A → M unit)
    (out : A → list str) lines lines' :
  (∀ x ls ls', x ∈ l → body x ls = Return ((), ls') → ls' = ls ++ out x) →
  for_each l body lines = Return ((), lines') →
  lines' = lines ++ (l ≫= out).
Proof.
  revert lines. induction l as [|x l IH]; intros lines Hb.
  - simpl. intros [= <-]. by rewrite app_nil_r.
  - rewrite for_each_cons.
    destruct (body x lines) as [[[] ls]| |] eqn:Hx; [|done..].
    apply Hb in Hx as ->; [|left]. intros ->%IH.
    + by rewrite bind_cons, app_assoc.
    + intros y ls1 ls2 Hy. apply Hb. by right.
Qed.

Lemma walk_dir_Return (fuel : nat) (t : node) (prefix : str) lines lines' :
  walk_dir fuel t prefix lines = Return ((), lines') →
  lines' = lines ++ map (render prefix) (rows t).
Proof.
  revert t prefix lines lines'.
  induction fuel as [|fuel IH]; intros t prefix lines lines'; [done|].
  destruct t as [| |entries|e]; [done| | |].
  - simpl. intros [= <-]. by rewrite app_nil_r.
  - change (walk_dir (S fuel) (Dir entries) prefix lines) with
      (for_each (zip (pointers (items_of (Dir entries)))
                   (items_of (Dir entries)))
         (loop_body (walk_dir fuel) (Dir entries) prefix) lines).
    rewrite zip_pointers, for_each_fmap, rows_Dir.
    change (map (render prefix) ?l) with (render prefix <$> l).
    rewrite fmap_bind.
    apply for_each_Return. intros [item last] ls ls' _.
    unfold compose, loop_body. simpl fst; simpl snd.
    rewrite bind_append, extension_of_pointer.
    rewrite fmap_cons, <- list_fmap_compose.
    destruct (os_path_isdir _) eqn:Hd.
    + intros ->%IH. rewrite <- app_assoc. do 2 f_equal.
      apply list_fmap_ext. intros i r _. simpl. by rewrite render_below.
    + rewrite (rows_not_isdir _ Hd). by intros [= <-].
  - simpl. destruct e; try done. intros [= <-]. by rewrite app_nil_r.
Qed.

Lemma tree_lines_Return (root_dir : location) (lines : list str) :
  tree_lines root_dir = Return lines →
  lines = header root_dir :: map (render []) (rows (at_path root_dir)).
Proof.
  unfold tree_lines. rewrite bind_append.
  destruct (walk_dir _ _ _ _) as [[[] ls]| |] eqn:Hw; [|done..].
  apply walk_dir_Return in Hw as ->. by intros [= <-].
Qed.

Lemma generate_tree_Return (root_dir : location) (text : str) :
  generate_tree root_dir = Return text →
  ∃ lines, tree_lines root_dir = Return lines ∧ text = join NEWLINE lines.
Proof.
  unfold generate_tree. destruct (tree_lines root_dir) as [ls| |]; [|done..].
  intros [= <-]. eauto.
Qed.

End returns.

(** ** Induction on the tree, by depth *)

Section induction.

Lemma node_depth_ind (P : node → Prop) :
  (∀ t, (∀ entries e, t = Dir entries → e ∈ entries → P e.2) → P t) →
  ∀ t, P t.
Proof.
  intros step t. remember (height t) as n eqn:Hn.
  assert (height t ≤ n) as Hle by lia. clear Hn. revert t Hle.
  induction n as [|n IH]; intros t Hle.
  { pose proof (height_pos t). lia. }
  apply step. intros entries e -> He. apply IH.
  apply height_entry in He. lia.
Qed.

Lemma forallb_elem {A} (f : A → bool) (l : list A) (x : A) :
  forallb f l = true → x ∈ l → f x = true.
Proof.
  intros H%Is_true_true%forallb_True Hx. rewrite Forall_forall in H.
  by apply Is_true_true, H.
Qed.

Lemma forallb_intro {A} (f : A → bool) (l : list A) :
  (∀ x, x ∈ l → f x = true) → forallb f l = true.
Proof.
  intros H. apply Is_true_true, forallb_True, Forall_forall.
  intros x Hx. by apply Is_true_true, H.
Qed.

End induction.

(** ** Ignored entries never reach the walk *)

Section pruning.

Lemma prune_names (entries : list (str * node)) :
  (filter (λ e, not_ignored e.1) (map (λ e, (e.1, prune e.2)) entries)).*1
  = filter not_ignored entries.*1.
Proof.
  induction entries as [|[nm x] rest IH]; [done|].
  rewrite map_cons, fmap_cons, !filter_cons. simpl.
  destruct (decide (not_ignored nm)); [rewrite fmap_cons|]; by rewrite IH.
Qed.

Lemma filter_idemp {A} (P : A → Prop) `{!∀ x, Decision (P x)} (l : list A) :
  filter P (filter P l) = filter P l.
Proof.
  induction l as [|x l IH]; [done|]. rewrite filter_cons.
  destruct (decide (P x)) as [HP|]; [|done].
  by rewrite filter_cons, decide_True, IH.
Qed.

Lemma items_of_prune (t : node) : items_of (prune t) = items_of t.
Proof.
  destruct t as [| |entries|e]; [done..| |done].
  unfold items_of. simpl. by rewrite prune_names, filter_idemp.
Qed.

Lemma isdir_prune (t : node) : os_path_isdir (prune t) = os_path_isdir t.
Proof. by destruct t. Qed.

Lemma join_prune (t : node) (item : str) :
  not_ignored item →
  os_path_join (prune t) item = prune (os_path_join t item).
Proof.
  intros Hni. destruct t as [| |entries|e]; [done..| |done]. simpl.
  induction entries as [|[nm x] rest IH]; [done|].
  rewrite map_cons, filter_cons. simpl.
  destruct (decide (not_ignored nm)) as [Hnm|Hnm]; simpl.
  - by destruct (decide (nm = item)).
  - rewrite decide_False; [done|]. by intros ->.
Qed.

Lemma elem_of_zip_pointers (pointer item : str) (items : list str) :
  (pointer, item) ∈ zip (pointers items) items → item ∈ items.
Proof.
  rewrite zip_pointers. intros ([x b] & [= -> ->] & Hin)%list_elem_of_fmap.
  by apply elem_of_mark_last in Hin.
Qed.

Lemma walk_dir_prune (fuel : nat) (t : node) (prefix : str) lines :
  walk_dir fuel (prune t) prefix lines = walk_dir fuel t prefix lines.
Proof.
  revert t prefix lines.
  induction fuel as [|fuel IH]; intros t prefix lines; [done|].
  destruct t as [| |entries|e]; [done..| |done].
  change (for_each (zip (pointers (items_of (prune (Dir entries))))
                      (items_of (prune (Dir entries))))
            (loop_body (walk_dir fuel) (prune (Dir entries)) prefix) lines
          = for_each (zip (pointers (items_of (Dir entries)))
                        (items_of (Dir entries)))
              (loop_body (walk_dir fuel) (Dir entries) prefix) lines).
  rewrite items_of_prune. apply for_each_ext.
  intros [pointer item] ls [Hni _]%elem_of_zip_pointers%elem_of_items_of.
  unfold loop_body. rewrite !bind_append, (join_prune _ _ Hni), isdir_prune.
  destruct (os_path_isdir _); [apply IH|done].
Qed.

Lemma tree_lines_prune (root_dir : location) :
  tree_lines (Location (os_path_abspath root_dir) (prune (at_path root_dir)))
  = tree_lines root_dir.
Proof.
  unfold tree_lines. cbn [at_path os_path_abspath]. rewrite !bind_append.
  by rewrite walk_dir_prune.
Qed.

Lemma generate_tree_prune (root_dir : location) :
  generate_tree
    (Location (os_path_abspath root_dir) (prune (at_path root_dir)))
  = generate_tree root_dir.
Proof. unfold generate_tree. by rewrite tree_lines_prune. Qed.

Lemma elem_of_prune_entries (entries : list (str * node)) (e : str * node) :
  e ∈ filter (λ e, not_ignored e.1) (map (λ e, (e.1, prune e.2)) entries) ↔
  not_ignored e.1 ∧ ∃ e', e' ∈ entries ∧ e = (e'.1, prune e'.2).
Proof.
  rewrite list_elem_of_filter.
  change (map ?f ?l) with (f <$> l). rewrite list_elem_of_fmap.
  split.
  - intros [Hni (e' & -> & He')]. eauto.
  - intros [Hni (e' & He' & ->)]. eauto.
Qed.

Lemma clean_prune (t : node) : clean (prune t) = true.
Proof.
  induction t as [t IH] using node_depth_ind.
  destruct t as [| |entries|e]; [done..| |done].
  simpl. apply forallb_intro.
  intros e (Hni & e' & He' & ->)%elem_of_prune_entries. simpl in *.
  unfold ignored. rewrite bool_decide_eq_false_2 by done. simpl.
  by apply (IH entries).
Qed.

Lemma distinct_prune (t : node) : distinct t = true → distinct (prune t) = true.
Proof.
  induction t as [t IH] using node_depth_ind.
  destruct t as [| |entries|e]; [done..| |done].
  simpl. intros [Hnd Hall]%andb_true_iff. apply andb_true_iff. split.
  - apply bool_decide_eq_true. apply bool_decide_eq_true in Hnd.
    rewrite prune_names. by apply NoDup_filter.
  - apply forallb_intro.
    intros e (Hni & e' & He' & ->)%elem_of_prune_entries. simpl.
    apply (IH entries e' eq_refl He'). by apply (forallb_elem _ _ _ Hall).
Qed.

End pruning.

(** ** The rows are the reachable entries *)

Section entries.

Lemma items_of_Dir (entries : list (str * node)) :
  items_of (Dir entries) = sorted (filter not_ignored entries.*1).
Proof. reflexivity. Qed.

Lemma join_cases (entries : list (str * node)) (item : str) :
  rows (os_path_join (Dir entries) item) = [] ∨
  (item, os_path_join (Dir entries) item) ∈ entries.
Proof.
  simpl. destruct (entry_named item entries) as [n|] eqn:E.
  - right. by apply entry_named_elem.
  - by left.
Qed.

Lemma join_NoDup (entries : list (str * node)) (e : str * node) :
  NoDup entries.*1 → e ∈ entries → os_path_join (Dir entries) e.1 = e.2.
Proof.
  intros Hnd He. destruct e as [nm x]. simpl.
  by rewrite (entry_named_NoDup nm entries x).
Qed.

Lemma elem_of_rows_Dir (entries : list (str * node)) (r : row) :
  r ∈ rows (Dir entries) ↔
  ∃ item last, (item, last) ∈ mark_last (items_of (Dir entries)) ∧
    (r = Row [] last item ∨
     ∃ r', r' ∈ rows (os_path_join (Dir entries) item) ∧
           r = below item last r').
Proof.
  rewrite rows_Dir, list_elem_of_bind. split.
  - intros ([item last] & Hr & Hil). exists item, last. split; [done|].
    simpl in Hr. apply elem_of_cons in Hr as [->|Hr]; [by left|right].
    change (map ?f ?l) with (f <$> l) in Hr.
    apply list_elem_of_fmap in Hr as (r' & -> & Hr'). eauto.
  - intros (item & last & Hil & Hr). exists (item, last). split; [|done].
    simpl. destruct Hr as [->|(r' & Hr' & ->)]; [left|right].
    change (map ?f ?l) with (f <$> l). apply list_elem_of_fmap. eauto.
Qed.

Lemma rows_paths_Dir (entries : list (str * node)) :
  row_path <$> rows (Dir entries)
  = items_of (Dir entries) ≫= λ item,
      [item] :: (cons item <$>
                 (row_path <$> rows (os_path_join (Dir entries) item))).
Proof.
  rewrite rows_Dir, fmap_bind.
  rewrite <- (mark_last_fst (items_of (Dir entries))) at 2.
  rewrite list_fmap_bind. apply list_bind_ext; [|done].
  intros [item last]. simpl. f_equal.
  change (map ?f ?l) with (f <$> l).
  rewrite <- !list_fmap_compose. by apply list_fmap_ext.
Qed.

Lemma bind_Permutation_ext {A B} (f g : A → list B) (l : list A) :
  (∀ x, x ∈ l → f x ≡ₚ g x) → l ≫= f ≡ₚ l ≫= g.
Proof.
  induction l as [|x l IH]; intros Hfg; [done|].
  rewrite !bind_cons. apply Permutation_app.
  - apply Hfg. left.
  - apply IH. intros y Hy. apply Hfg. by right.
Qed.

Lemma filter_all {A} (P : A → Prop) `{!∀ x, Decision (P x)} (l : list A) :
  (∀ x, x ∈ l → P x) → filter P l = l.
Proof.
  induction l as [|x l IH]; intros HP; [done|].
  rewrite filter_cons, decide_True by (apply HP; left).
  f_equal. apply IH. intros y Hy. apply HP. by right.
Qed.

Lemma clean_names (entries : list (str * node)) :
  clean (Dir entries) = true → filter not_ignored entries.*1 = entries.*1.
Proof.
  intros Hc. apply filter_all.
  intros nm ([nm' x] & -> & He)%list_elem_of_fmap.
  simpl in Hc. apply (forallb_elem _ _ _ Hc) in He. simpl in He.
  apply andb_true_iff in He as [Hi _]. apply negb_true_iff in Hi.
  by apply bool_decide_eq_false in Hi.
Qed.

(** With nothing ignored, the rows name exactly the reachable entries. *)
Lemma rows_reachable (t : node) :
  clean t = true → distinct t = true →
  row_path <$> rows t ≡ₚ reachable t.
Proof.
  induction t as [t IH] using node_depth_ind.
  destruct t as [| |entries|e]; [done..| |done].
  intros Hc Hd. rewrite rows_paths_Dir.
  rewrite items_of_Dir, (clean_names _ Hc).
  rewrite sorted_Permutation, list_fmap_bind.
  simpl in Hc, Hd. apply andb_true_iff in Hd as [Hnd Hd].
  apply bool_decide_eq_true in Hnd.
  change (reachable (Dir entries))
    with (entries ≫= λ e, [e.1] :: map (cons e.1) (reachable e.2)).
  apply bind_Permutation_ext. intros e He. unfold compose.
  rewrite (join_NoDup _ _ Hnd He). constructor.
  change (map ?f ?l) with (f <$> l). apply fmap_Permutation.
  apply (IH entries e eq_refl He).
  - apply (forallb_elem _ _ _ Hc) in He. by apply andb_true_iff in He as [_ ?].
  - by apply (forallb_elem _ _ _ Hd) in He.
Qed.

Lemma reachable_nonempty (t : node) : [] ∉ reachable t.
Proof.
  destruct t as [| |entries|e]; try by intros ?%elem_of_nil.
  simpl. intros (e & He & _)%list_elem_of_bind.
  apply elem_of_cons in He as [?|He]; [done|].
  change (map ?f ?l) with (f <$> l) in He.
  by apply list_elem_of_fmap in He as (? & ? & _).
Qed.

Lemma elem_of_reachable_Dir (entries : list (str * node)) (path : list str) :
  path ∈ reachable (Dir entries) ↔
  ∃ e, e ∈ entries ∧
    (path = [e.1] ∨ ∃ p, p ∈ reachable e.2 ∧ path = e.1 :: p).
Proof.
  change (reachable (Dir entries))
    with (entries ≫= λ e, [e.1] :: map (cons e.1) (reachable e.2)).
  rewrite list_elem_of_bind. split.
  - intros (e & Hp & He). exists e. split; [done|].
    apply elem_of_cons in Hp as [->|Hp]; [by left|right].
    change (map ?f ?l) with (f <$> l) in Hp.
    apply list_elem_of_fmap in Hp as (p & -> & Hp). eauto.
  - intros (e & He & Hp). exists e. split; [|done].
    destruct Hp as [->|(p & Hp & ->)]; [left|right].
    change (map ?f ?l) with (f <$> l). apply list_elem_of_fmap. eauto.
Qed.

Lemma elem_of_map_cons {A} (x : A) (p : list A) (l : list (list A)) :
  p ∈ map (cons x) l ↔ ∃ q, p = x :: q ∧ q ∈ l.
Proof. apply list_elem_of_fmap. Qed.

Lemma NoDup_map_cons {A} (x : A) (l : list (list A)) :
  NoDup l → NoDup (map (cons x) l).
Proof. apply (NoDup_fmap_2 _). Qed.

(** No entry is reached twice. *)
Lemma NoDup_reachable (t : node) : distinct t = true → NoDup (reachable t).
Proof.
  induction t as [t IH] using node_depth_ind.
  destruct t as [| |entries|e]; try (intros _; apply NoDup_nil_2).
  intros Hd. simpl in Hd. apply andb_true_iff in Hd as [Hnd Hd].
  apply bool_decide_eq_true in Hnd.
  change (reachable (Dir entries))
    with (entries ≫= λ e, [e.1] :: map (cons e.1) (reachable e.2)).
  apply NoDup_bind.
  - intros [n1 x1] [n2 x2] p H1 H2 Hp1 Hp2. simpl in *.
    assert (n1 = n2) as <-.
    { apply elem_of_cons in Hp1 as [->|Hp1], Hp2 as [Hp2|Hp2];
        change (map ?f ?l) with (f <$> l) in *;
        repeat match goal with
        | H : _ ∈ _ <$> _ |- _ =>
            apply list_elem_of_fmap in H as (? & ? & _)
        end; congruence. }
    f_equal.
    pose proof (entry_named_NoDup _ _ _ Hnd H1).
    pose proof (entry_named_NoDup _ _ _ Hnd H2). congruence.
  - intros e He. apply NoDup_cons. split.
    + intros (p & [= <-] & Hp)%elem_of_map_cons.
      by apply reachable_nonempty in Hp.
    + apply NoDup_map_cons, (IH entries e eq_refl He).
      by apply (forallb_elem _ _ _ Hd) in He.
  - by apply NoDup_fmap_1 in Hnd.
Qed.

(** Pruning keeps exactly the paths none of whose names is ignored. *)
Lemma reachable_prune (t : node) (path : list str) :
  path ∈ reachable (prune t) ↔
  path ∈ reachable t ∧ Forall not_ignored path.
Proof.
  revert path. induction t as [t IH] using node_depth_ind. intros path.
  destruct t as [| |entries|e]; simpl prune;
    try (split; [by intros ?%elem_of_nil|by intros [?%elem_of_nil _]]).
  rewrite !elem_of_reachable_Dir. split.
  - intros (e & (Hni & e' & He' & ->)%elem_of_prune_entries & Hp).
    simpl in *. destruct Hp as [->|(p & Hp & ->)].
    + split; [exists e'; eauto|]. by repeat constructor.
    + apply (IH entries e' eq_refl He') in Hp as [Hp Hall].
      split; [exists e'; eauto|]. by constructor.
  - intros [(e & He & Hp) Hall].
    exists (e.1, prune e.2). simpl.
    destruct Hp as [->|(p & Hp & ->)];
      apply Forall_cons in Hall as [Hni Hall];
      (split; [apply elem_of_prune_entries; eauto|]); [by left|right].
    exists p. split; [|done]. by apply (IH entries e eq_refl He).
Qed.

Lemma row_path_not_ignored (t : node) (r : row) :
  r ∈ rows t → Forall not_ignored (row_path r).
Proof.
  revert r. induction t as [t IH] using node_depth_ind. intros r.
  destruct t as [| |entries|e]; try by intros ?%elem_of_nil.
  intros (item & last & Hil & Hr)%elem_of_rows_Dir.
  apply elem_of_mark_last, elem_of_items_of in Hil as [Hni _].
  destruct Hr as [->|(r' & Hr' & ->)].
  - by repeat constructor.
  - unfold row_path. simpl. constructor; [done|].
    destruct (join_cases entries item) as [Hnil|Hin].
    + rewrite Hnil in Hr'. by apply elem_of_nil in Hr'.
    + by apply (IH entries _ eq_refl Hin).
Qed.

End entries.

(** ** Marks and indentation *)

Section indentation.

Lemma NoDup_items_of (t : node) : distinct t = true → NoDup (items_of t).
Proof.
  destruct t as [| |entries|e]; try (intros _; apply NoDup_nil_2).
  simpl. intros [Hnd _]%andb_true_iff. apply bool_decide_eq_true in Hnd.
  rewrite items_of_Dir, sorted_Permutation. by apply NoDup_filter.
Qed.

Lemma distinct_child (entries : list (str * node)) (e : str * node) :
  distinct (Dir entries) = true → e ∈ entries → distinct e.2 = true.
Proof.
  simpl. intros [_ Hd]%andb_true_iff He. by apply (forallb_elem _ _ _ Hd) in He.
Qed.

Lemma row_path_lineage (r : row) : row_path r = (lineage r).*1.
Proof. unfold row_path, lineage. by rewrite fmap_app. Qed.

(** The marks mean what they say: along the way down to a row, every
    name is a filtered child of the directory reached so far, is marked
    exactly when it is that directory's final child, and (above the row)
    leads to a directory. *)
Lemma rows_lineage (t : node) (r : row) (k : nat) (nm : str) (last : bool) :
  distinct t = true → r ∈ rows t → lineage r !! k = Some (nm, last) →
  nm ∈ items_of (resolve t (take k (row_path r))) ∧
  (last = true ↔ final_in (resolve t (take k (row_path r))) nm) ∧
  (k < length (ancestors r) →
   os_path_isdir (resolve t (take (S k) (row_path r))) = true).
Proof.
  revert r k. induction t as [t IH] using node_depth_ind. intros r k Hd.
  destruct t as [| |entries|e]; try by intros ?%elem_of_nil.
  intros (item & mark & Hil & Hr)%elem_of_rows_Dir Hk.
  assert (item ∈ items_of (Dir entries) ∧
          (mark = true ↔ final_in (Dir entries) item)) as [Hitem Hmark].
  { split; [by apply elem_of_mark_last in Hil|].
    by apply mark_last_final; [apply NoDup_items_of|]. }
  destruct Hr as [->|(r' & Hr' & ->)].
  - destruct k as [|k]; [|by destruct k]. injection Hk as <- <-.
    split_and!; [done..|]. simpl. lia.
  - destruct (join_cases entries item) as [Hnil|Hin].
    { rewrite Hnil in Hr'. by apply elem_of_nil in Hr'. }
    destruct k as [|k].
    + injection Hk as <- <-. split_and!; [done..|]. intros _.
      change (resolve (Dir entries) (take 1 (row_path (below item mark r'))))
        with (os_path_join (Dir entries) item).
      destruct (os_path_isdir _) eqn:Hdir; [done|].
      rewrite (rows_not_isdir _ Hdir) in Hr'. by apply elem_of_nil in Hr'.
    + change (lineage r' !! k = Some (nm, last)) in Hk.
      change (row_path (below item mark r')) with (item :: row_path r').
      change (length (ancestors (below item mark r')))
        with (S (length (ancestors r'))).
      change (resolve (Dir entries) (take (S k) (item :: row_path r')))
        with (resolve (os_path_join (Dir entries) item)
                (take k (row_path r'))).
      change (resolve (Dir entries) (take (S (S k)) (item :: row_path r')))
        with (resolve (os_path_join (Dir entries) item)
                (take (S k) (row_path r'))).
      destruct (IH entries _ eq_refl Hin r' k
                  (distinct_child _ _ Hd Hin) Hr' Hk) as (? & ? & ?).
      split_and!; [done..|]. intros ?. auto with lia.
Qed.

Lemma length_extension_of (last : bool) : length (extension_of last) = 4.
Proof. by destruct last. Qed.

Lemma length_indent (r : row) : length (indent r) = 4 * length (ancestors r).
Proof.
  unfold indent. induction (ancestors r) as [|a l IH]; [done|].
  simpl. rewrite length_app, length_extension_of.
  change (mjoin (map ?f l)) with (mjoin (map f l)) in *. simpl in IH. lia.
Qed.

(** The block of four characters an ancestor contributes. *)
Lemma indent_block (r : row) (k : nat) (nm : str) (last : bool) :
  ancestors r !! k = Some (nm, last) →
  take 4 (drop (4 * k) (indent r)) = extension_of last.
Proof.
  unfold indent. revert k. induction (ancestors r) as [|a l IH]; [done|].
  intros [|k] Hk.
  - injection Hk as ->.
    change (take 4 (extension_of last
                    ++ mjoin (map (λ a, extension_of a.2) l))
            = extension_of last).
    apply take_app_length'. by destruct last.
  - change (take 4 (drop (4 * S k)
              (extension_of a.2 ++ mjoin (map (λ a, extension_of a.2) l)))
            = extension_of last).
    replace (4 * S k) with (length (extension_of a.2) + 4 * k)
      by (rewrite length_extension_of; lia).
    rewrite <- drop_drop, drop_app_length. by apply IH.
Qed.

Lemma indent_bar (r : row) (k : nat) (nm : str) (last : bool) :
  ancestors r !! k = Some (nm, last) →
  indent r !! (4 * k) = Some CONTINUATION_BAR ↔ last = false.
Proof.
  intros Hb%indent_block.
  assert (indent r !! (4 * k) = extension_of last !! 0) as ->.
  { rewrite <- Hb, lookup_take by lia. rewrite lookup_drop. f_equal. lia. }
  by destruct last.
Qed.

End indentation.

(** ** The driver *)

Section driver.

Lemma encode_app (a b : list N) :
  Utf8.encode (a ++ b)
  = match Utf8.encode a, Utf8.encode b with
    | Some da, Some db => Some (da ++ db)
    | _, _ => None
    end.
Proof.
  induction a as [|c a IH]; simpl.
  - by destruct (Utf8.encode b).
  - rewrite IH. destruct (Utf8.encode_char c) as [bs|]; [|done].
    destruct (Utf8.encode a) as [da|]; [|done].
    destruct (Utf8.encode b) as [db|]; [|done].
    by rewrite app_assoc.
Qed.

(** Joining puts nothing after the final line. *)
Lemma join_snoc (sep : list N) (lines : list (list N)) (final : list N) :
  ∃ before, join sep (lines ++ [final]) = before ++ final.
Proof.
  induction lines as [|l [|l' lines] IH].
  - by exists [].
  - exists (l ++ sep). simpl. by rewrite <- app_assoc.
  - destruct IH as [before IH]. exists (l ++ sep ++ before).
    change (join sep ((l :: l' :: lines) ++ [final]))
      with (l ++ sep ++ join sep ((l' :: lines) ++ [final])).
    by rewrite IH, <- !app_assoc.
Qed.

(** Reads what was printed off a console that only grew. *)
Ltac said :=
  eexists;
  repeat match goal with
  | |- context [(?l ++ [?a]) ++ ?k] => rewrite <- (app_assoc l [a] k)
  end;
  rewrite drop_app_length; done.

(** The four ways a run can go once the tree is rendered, and the one
    way it goes when rendering raises. *)
Lemma main_run (w : world) :
  ∃ said,
    printed w
    = Scanning (os_path_basename (os_path_abspath (cwd w))) :: said ∧
    match generate_tree (cwd w) with
    | Raise e => said = [ErrorOccurred e] ∧ disk (main w) = disk w
    | OutOfFuel => False
    | Return text =>
        match open_fault w, Utf8.encode text, write_fault w with
        | Some e, _, _ => said = [ErrorOccurred e] ∧ disk (main w) = disk w
        | None, None, _ =>
            said = [ErrorOccurred UnicodeEncodeError] ∧
            disk (main w) = <[OUTPUT_FILENAME := []]> (disk w)
        | None, Some data, Some (e, n) =>
            said = [ErrorOccurred e] ∧
            disk (main w) = <[OUTPUT_FILENAME := take n data]> (disk w)
        | None, Some data, None =>
            said = success_messages text ∧
            disk (main w) = <[OUTPUT_FILENAME := data]> (disk w)
        end
    end.
Proof.
  unfold printed, main, write_text.
  pose proof (generate_tree_total (cwd w)) as Htot.
  destruct (generate_tree (cwd w)) as [text|e|]; [| |done]; simpl.
  - destruct (open_fault w) as [e|]; simpl; [said|].
    destruct (Utf8.encode text) as [data|]; simpl; [|said].
    destruct (write_fault w) as [[e n]|]; simpl; said.
  - said.
Qed.

(** The console only grows. *)
Lemma main_stdout (w : world) : stdout (main w) = stdout w ++ printed w.
Proof.
  assert (∃ k, stdout (main w) = stdout w ++ k) as [k Hk].
  { unfold main, write_text.
    destruct (generate_tree (cwd w)) as [text|e|]; simpl;
      [destruct (open_fault w); simpl;
        [|destruct (Utf8.encode text); simpl;
           [destruct (write_fault w) as [[??]|]; simpl|]]| |];
      repeat match goal with
      | |- context [(?l ++ [?a]) ++ ?k] => rewrite <- (app_assoc l [a] k)
      end; eauto. }
  unfold printed. by rewrite Hk, drop_app_length.
Qed.

(** A run that reports success rendered the tree, encoded it and stored
    all of it. *)
Lemma success_run (w : world) :
  reports_success w →
  ∃ text data,
    generate_tree (cwd w) = Return text ∧
    Utf8.encode text = Some data ∧
    open_fault w = None ∧ write_fault w = None ∧
    disk (main w) = <[OUTPUT_FILENAME := data]> (disk w) ∧
    printed w = Scanning (os_path_basename (os_path_abspath (cwd w)))
                  :: success_messages text.
Proof.
  unfold reports_success. destruct (main_run w) as (said & -> & Hrun).
  intros Hin. apply elem_of_cons in Hin as [?|Hin]; [done|].
  destruct (generate_tree (cwd w)) as [text|e|]; [| |done].
  - destruct (open_fault w) as [e|] eqn:Ho.
    { destruct Hrun as [-> _]. by apply list_elem_of_singleton in Hin. }
    destruct (Utf8.encode text) as [data|] eqn:He.
    2:{ destruct Hrun as [-> _]. by apply list_elem_of_singleton in Hin. }
    destruct (write_fault w) as [[e n]|] eqn:Hw.
    { destruct Hrun as [-> _]. by apply list_elem_of_singleton in Hin. }
    destruct Hrun as [-> Hdisk]. by exists text, data.
  - destruct Hrun as [-> _]. by apply list_elem_of_singleton in Hin.
Qed.

(** And the other way round. *)
Lemma run_success (w : world) (text : list N) (data : list byte) :
  generate_tree (cwd w) = Return text →
  Utf8.encode text = Some data →
  open_fault w = None → write_fault w = None →
  reports_success w ∧
  disk (main w) = <[OUTPUT_FILENAME := data]> (disk w) ∧
  printed w = Scanning (os_path_basename (os_path_abspath (cwd w)))
                :: success_messages text.
Proof.
  intros Hg He Ho Hw. unfold reports_success.
  destruct (main_run w) as (said & -> & Hrun).
  rewrite Hg, He, Ho, Hw in Hrun. destruct Hrun as [-> ->].
  split_and!; [|done..]. right. left.
Qed.

End driver.

(** ** A listing that fails otherwise ends the rendering *)

Section failures.

Lemma first_raised_cons {A} (fails : A → option exn) (x : A) (l : list A) :
  first_raised fails (x :: l)
  = match fails x with Some e => Some e | None => first_raised fails l end.
Proof. reflexivity. Qed.

Lemma first_raised_ext {A} (f g : A → option exn) (l : list A) :
  (∀ x, x ∈ l → f x = g x) → first_raised f l = first_raised g l.
Proof.
  induction l as [|x l IH]; intros Hfg; [done|].
  rewrite !first_raised_cons, Hfg by left.
  destruct (g x); [done|]. apply IH. intros y Hy. apply Hfg. by right.
Qed.

Lemma first_raised_fmap {A B} (g : A → B) (f : B → option exn) (l : list A) :
  first_raised f (g <$> l) = first_raised (f ∘ g) l.
Proof.
  induction l as [|x l IH]; [done|].
  rewrite fmap_cons, !first_raised_cons, IH. done.
Qed.

Lemma first_raised_Some {A} (f : A → option exn) (l : list A) (e : exn) :
  first_raised f l = Some e → ∃ x, x ∈ l ∧ f x = Some e.
Proof.
  induction l as [|x l IH]; [done|]. rewrite first_raised_cons.
  destruct (f x) as [e'|] eqn:Hx.
  - intros [= ->]. exists x. split; [left|done].
  - intros (y & Hy & Hfy)%IH. exists y. split; [by right|done].
Qed.

(** A loop goes through its rounds until one raises. *)
Lemma for_each_outcome {A} (l : list A) (body : A → M unit)
    (fails : A → option exn) (out : A → list (list N)) lines :
  (∀ x ls, x ∈ l →
     body x ls = match fails x with
                 | Some e => Raise e
                 | None => Return ((), ls ++ out x)
                 end) →
  for_each l body lines
  = match first_raised fails l with
    | Some e => Raise e
    | None => Return ((), lines ++ (l ≫= out))
    end.
Proof.
  revert lines. induction l as [|x l IH]; intros lines Hb.
  - simpl. by rewrite app_nil_r.
  - rewrite for_each_cons, first_raised_cons, Hb by left.
    destruct (fails x) as [e|]; [done|]. rewrite IH.
    + destruct (first_raised fails l); [done|].
      by rewrite bind_cons, app_assoc.
    + intros y ls Hy. apply Hb. by right.
Qed.

(** What the first failing listing below a directory is. *)
Lemma raised_Dir (entries : list (list N * node)) :
  raised (Dir entries)
  = first_raised
      (λ item, if os_path_isdir (os_path_join (Dir entries) item)
               then raised (os_path_join (Dir entries) item) else None)
      (items_of (Dir entries)).
Proof.
  change (raised (Dir entries)) with
    (first_raised
       (λ item, default None
          (entry_named item
             (map (λ e, (e.1, if os_path_isdir e.2 then raised e.2 else None))
                entries)))
       (sorted (filter not_ignored entries.*1))).
  rewrite items_of_Dir. apply first_raised_ext. intros item _.
  rewrite (entry_named_fmap
             (λ n, if os_path_isdir n then raised n else None)).
  simpl. by destruct (entry_named item entries).
Qed.

(** The walk, in full: within the depth the stack allows it raises what
    the first failing listing raises, and otherwise appends the rendering
    of the rows. *)
Lemma walk_dir_outcome (fuel : nat) (t : node) (prefix : list N)
    (lines : list (list N)) :
  height t ≤ fuel →
  walk_dir fuel t prefix lines
  = match raised t with
    | Some e => Raise e
    | None => Return ((), lines ++ map (render prefix) (rows t))
    end.
Proof.
  revert t prefix lines.
  induction fuel as [|fuel IH]; intros t prefix lines Hh.
  { pose proof (height_pos t). lia. }
  destruct t as [| |entries|e]; [done| | |].
  - simpl. by rewrite app_nil_r.
  - change (walk_dir (S fuel) (Dir entries) prefix lines) with
      (for_each (zip (pointers (items_of (Dir entries)))
                   (items_of (Dir entries)))
         (loop_body (walk_dir fuel) (Dir entries) prefix) lines).
    rewrite zip_pointers, for_each_fmap, rows_Dir, raised_Dir.
    change (map (render prefix) ?l) with (render prefix <$> l).
    rewrite fmap_bind.
    assert (∀ f, first_raised f (items_of (Dir entries))
                 = first_raised (f ∘ fst) (mark_last (items_of (Dir entries))))
      as -> by (intros f; by rewrite <- first_raised_fmap, mark_last_fst).
    apply for_each_outcome. intros [item last] ls Hin.
    unfold compose, loop_body. simpl fst; simpl snd.
    rewrite bind_append, extension_of_pointer.
    destruct (os_path_isdir _) eqn:Hd.
    + rewrite IH by (apply height_child in Hd; lia).
      destruct (raised _); [done|].
      rewrite fmap_cons, <- app_assoc. do 3 f_equal.
      change (map ?f ?l) with (f <$> l).
      rewrite <- list_fmap_compose.
      change ([?x] ++ ?l) with (x :: l). f_equal.
      apply list_fmap_ext.
      intros i r _. simpl. by rewrite render_below.
    + rewrite (rows_not_isdir _ Hd). done.
  - simpl. destruct e; simpl; by rewrite ?app_nil_r.
Qed.

Lemma tree_lines_outcome (root_dir : location) :
  height (at_path root_dir) ≤ WALK_DEPTH →
  tree_lines root_dir
  = match raised (at_path root_dir) with
    | Some e => Raise e
    | None =>
        Return (header root_dir :: map (render []) (rows (at_path root_dir)))
    end.
Proof.
  intros Hh. unfold tree_lines. rewrite bind_append, walk_dir_outcome by done.
  by destruct (raised _).
Qed.

Lemma generate_tree_raised (root_dir : location) (e : exn) :
  height (at_path root_dir) ≤ WALK_DEPTH →
  raised (at_path root_dir) = Some e →
  generate_tree root_dir = Raise e.
Proof.
  intros Hh Hr. unfold generate_tree.
  by rewrite tree_lines_outcome, Hr by done.
Qed.

(** What ends the walk is what a listing of the walk raised, and never
    [FileNotFoundError]. *)
Lemma raised_listing (t : node) (e : exn) :
  raised t = Some e →
  e ≠ FileNotFoundError ∧
  ∃ path, Forall not_ignored path ∧ os_listdir (resolve t path) = inl e.
Proof.
  revert e. induction t as [t IH] using node_depth_ind. intros e.
  destruct t as [| |entries|e'].
  - intros [= <-]. split; [done|]. by exists [].
  - done.
  - rewrite raised_Dir. intros (item & Hin & Hr)%first_raised_Some.
    destruct (os_path_isdir _) eqn:Hd; [|done].
    destruct (isdir_join _ _ Hd) as (entries' & [= <-] & Hchild).
    destruct (IH entries _ eq_refl Hchild e Hr) as (Hne & path & Hall & Hl).
    split; [done|]. exists (item :: path). split; [|done].
    constructor; [|done]. by apply elem_of_items_of in Hin as [? _].
  - simpl. destruct (decide (e' = FileNotFoundError)); [done|].
    intros [= <-]. split; [done|]. by exists [].
Qed.

(** Where no walked listing fails, nothing ends the walk; on a tree none
    of whose directories holds a name twice, the converse holds too. *)
Lemma silent_raised (t : node) : silent t = true → raised t = None.
Proof.
  intros Hs.
  pose proof (walk_dir_rows (height t) t [] [] Hs (Nat.le_refl _)) as Hw.
  rewrite walk_dir_outcome in Hw by done. by destruct (raised t).
Qed.

Lemma forallb_false_elem {A} (f : A → bool) (l : list A) :
  forallb f l = false → ∃ x, x ∈ l ∧ f x = false.
Proof.
  induction l as [|x l IH]; [done|]. simpl.
  destruct (f x) eqn:Hx; simpl.
  - intros (y & Hy & Hfy)%IH. exists y. split; [by right|done].
  - intros _. exists x. split; [left|done].
Qed.

Lemma first_raised_None {A} (f : A → option exn) (l : list A) (x : A) :
  first_raised f l = None → x ∈ l → f x = None.
Proof.
  induction l as [|y l IH]; [by intros _ ?%elem_of_nil|].
  rewrite first_raised_cons. destruct (f y) eqn:Hy; [done|].
  intros Hn [->|Hx]%elem_of_cons; auto.
Qed.

Lemma raised_silent (t : node) :
  distinct t = true → raised t = None → silent t = true.
Proof.
  induction t as [t IH] using node_depth_ind. intros Hd.
  destruct t as [| |entries|e]; [done..| |].
  - rewrite raised_Dir. intros Hr. simpl. apply forallb_intro.
    intros [nm x] He. simpl.
    destruct (ignored nm) eqn:Hi; [done|].
    destruct (os_path_isdir x) eqn:Hx; [|done]. simpl.
    assert (NoDup entries.*1) as Hnd.
    { simpl in Hd. apply andb_true_iff in Hd as [Hnd _].
      by apply bool_decide_eq_true in Hnd. }
    assert (nm ∈ items_of (Dir entries)) as Hitem.
    { rewrite items_of_Dir, elem_of_sorted, list_elem_of_filter. split.
      - by apply bool_decide_eq_false in Hi.
      - apply list_elem_of_fmap. exists (nm, x). split; [reflexivity|exact He]. }
    pose proof (first_raised_None _ _ _ Hr Hitem) as Hnone.
    pose proof (join_NoDup _ _ Hnd He) as Hj. cbn [fst snd] in Hj.
    cbv beta in Hnone. rewrite Hj, Hx in Hnone.
    apply (IH entries (nm, x) eq_refl He); [|done].
    apply (distinct_child _ _ Hd He).
  - simpl. destruct (decide (e = FileNotFoundError)) as [->|]; [done|].
    discriminate.
Qed.

End failures.

(** * The claims *)

(** ** The example of the specification *)

Lemma Permutation_3 {A} (a b c : A) (l : list A) :
  l ≡ₚ [a; b; c] →
  l ∈ [[a; b; c]; [a; c; b]; [b; a; c]; [c; a; b]; [b; c; a]; [c; b; a]].
Proof.
  intros H. pose proof (Permutation_length H) as Hlen.
  apply Permutation_cons_inv_r in H as (k1 & k2 & -> & H).
  apply Permutation_length_2_inv in H.
  destruct k1 as [|x [|y [|z k1]]];
    [| | |rewrite length_app in Hlen; simpl in Hlen; lia];
    simpl in H; destruct H as [H|H];
    first [ injection H as <- | rewrite H ];
    try injection H as <- <-; subst; simpl;
    repeat first [ apply list_elem_of_here | apply list_elem_of_further ].
Qed.

(** C2: the root named [root] holding the files [b.txt] and [a.txt] and the
    directory [sub] with the file [c.txt], listed in whatever order, is
    rendered as the five lines of the specification's example, joined by
    newlines; written as UTF-8 this is the example's text byte for byte. *)
Theorem C2_example_tree (root_dir : location) (entries : list (list N * node)) :
  os_path_basename (os_path_abspath root_dir) = u "root" →
  at_path root_dir = Dir entries →
  entries ≡ₚ example_entries →
  generate_tree root_dir = Return example_text ∧
  tree_lines root_dir
  = Return [ u "root/"; u "├── a.txt"; u "├── b.txt"; u "└── sub";
             u "    └── c.txt" ] ∧
  Utf8.encode example_text
  = Some (list_byte_of_string "root/
├── a.txt
├── b.txt
└── sub
    └── c.txt").
Proof.
  intros Hname Hroot Hperm. split_and!; [| |by vm_compute].
  - unfold generate_tree, tree_lines. rewrite Hname, Hroot.
    apply Permutation_3 in Hperm.
    repeat (apply elem_of_cons in Hperm as [->|Hperm]; [by vm_compute|]).
    by apply elem_of_nil in Hperm.
  - unfold tree_lines. rewrite Hname, Hroot.
    apply Permutation_3 in Hperm.
    repeat (apply elem_of_cons in Hperm as [->|Hperm]; [by vm_compute|]).
    by apply elem_of_nil in Hperm.
Qed.

Lemma C2_example_tree_witness :
  let root_dir := Location (u "/home/me/root") (Dir (rev example_entries)) in
  os_path_basename (os_path_abspath root_dir) = u "root" ∧
  rev example_entries ≡ₚ example_entries ∧
  generate_tree root_dir = Return example_text.
Proof.
  intros root_dir.
  assert (rev example_entries ≡ₚ example_entries) as Hperm
    by (symmetry; apply Permutation_rev).
  split_and!; [reflexivity|exact Hperm|].
  apply (C2_example_tree root_dir (rev example_entries));
    [reflexivity|reflexivity|exact Hperm].
Defined.

(** ** Listing failures *)

(** C1, as stated, fails: listing [locked] raises [PermissionError], which
    the [except FileNotFoundError] clause lets through; the rendering is
    abandoned and the run reports the error. *)
Lemma C1_counterexample :
  let sub := os_path_join (at_path locked_root) (u "locked") in
  os_path_isdir sub = true ∧
  os_listdir sub = inl PermissionError ∧
  generate_tree locked_root = Raise PermissionError ∧
  printed locked_world = [Scanning (u "proj"); ErrorOccurred PermissionError] ∧
  ¬ reports_success locked_world.
Proof.
  assert (printed locked_world
          = [Scanning (u "proj"); ErrorOccurred PermissionError]) as Hp
    by reflexivity.
  split_and!; [reflexivity..|exact Hp|].
  unfold reports_success. rewrite Hp.
  intros [?|[?|?%elem_of_nil]%elem_of_cons]%elem_of_cons; done.
Qed.

(** C1, amended: a subdirectory whose listing raises [FileNotFoundError]
    keeps its own line and contributes nothing below it, and the error goes
    no further; when no listing of the walk fails in any other way and the
    directories nest no deeper than the stack allows, the rendering
    returns, and the run reports success once the text is encoded and
    stored; when a listing of the walk fails in another way, the rendering
    raises the exception of the first such listing, nothing is stored and
    the run reports that exception.  On a tree none of whose directories
    holds a name twice, one of the two is the case. *)
Theorem C1_missing_directory_skipped :
  (∀ (fuel : nat) (current : node) (prefix pointer item : list N)
     (lines : list (list N)),
     let path := os_path_join current item in
     os_path_isdir path = true →
     os_listdir path = inl FileNotFoundError →
     walk_dir (S fuel) path
       (prefix ++ if decide (pointer = BRANCH) then BAR_EXT else BLANK_EXT)
       (lines ++ [prefix ++ pointer ++ item])
     = Return ((), lines ++ [prefix ++ pointer ++ item]) ∧
     loop_body (walk_dir (S fuel)) current prefix (pointer, item) lines
     = Return ((), lines ++ [prefix ++ pointer ++ item])) ∧
  (∀ (w : world),
     silent (at_path (cwd w)) = true →
     height (at_path (cwd w)) ≤ WALK_DEPTH →
     ∃ text,
       generate_tree (cwd w) = Return text ∧
       ∀ data, Utf8.encode text = Some data →
         open_fault w = None → write_fault w = None →
         reports_success w ∧
         disk (main w) !! OUTPUT_FILENAME = Some data) ∧
  (∀ (w : world) (e : exn),
     raised (at_path (cwd w)) = Some e →
     height (at_path (cwd w)) ≤ WALK_DEPTH →
     e ≠ FileNotFoundError ∧
     (∃ path, Forall not_ignored path ∧
        os_listdir (resolve (at_path (cwd w)) path) = inl e) ∧
     generate_tree (cwd w) = Raise e ∧
     printed w
     = [ Scanning (os_path_basename (os_path_abspath (cwd w)));
         ErrorOccurred e ] ∧
     disk (main w) = disk w) ∧
  (∀ (t : node),
     distinct t = true → silent t = false → is_Some (raised t)).
Proof.
  split_and!.
  - intros fuel current prefix pointer item lines path Hd Hl.
    assert (∀ p ls, walk_dir (S fuel) path p ls = Return ((), ls)) as Hw.
    { intros p ls. simpl. by rewrite Hl. }
    split; [apply Hw|].
    unfold loop_body. rewrite bind_append. fold path. rewrite Hd. apply Hw.
  - intros w Hs Hh. eexists. split; [by apply generate_tree_rows|].
    intros data He Ho Hw.
    destruct (run_success w _ data (generate_tree_rows _ Hs Hh) He Ho Hw)
      as (? & -> & _).
    split; [done|]. apply lookup_insert_eq.
  - intros w e Hr Hh.
    destruct (raised_listing _ _ Hr) as [Hne Hpath].
    pose proof (generate_tree_raised _ _ Hh Hr) as Hg.
    destruct (main_run w) as (said & -> & Hrun).
    rewrite Hg in Hrun. by destruct Hrun as [-> ->].
  - intros t Hd Hs. destruct (raised t) as [e|] eqn:Hr; [by exists e|].
    apply raised_silent in Hr; [congruence|done].
Qed.

Lemma C1_missing_directory_skipped_witness :
  let w := World vanished_root ∅ None None [] in
  (os_path_isdir (os_path_join (at_path vanished_root) (u "gone")) = true ∧
   os_listdir (os_path_join (at_path vanished_root) (u "gone"))
   = inl FileNotFoundError ∧
   loop_body (walk_dir 1) (at_path vanished_root) [] (BRANCH, u "gone")
     [u "proj/"]
   = Return ((), [u "proj/"; u "├── gone"])) ∧
  (silent (at_path (cwd w)) = true ∧
   height (at_path (cwd w)) ≤ WALK_DEPTH ∧
   generate_tree (cwd w)
   = Return (join NEWLINE [u "proj/"; u "├── gone"; u "└── z.txt"]) ∧
   reports_success w) ∧
  (raised (at_path (cwd locked_world)) = Some PermissionError ∧
   height (at_path (cwd locked_world)) ≤ WALK_DEPTH ∧
   os_listdir (resolve (at_path (cwd locked_world)) [u "locked"])
   = inl PermissionError ∧
   generate_tree (cwd locked_world) = Raise PermissionError ∧
   disk (main locked_world) = disk locked_world) ∧
  distinct (at_path (cwd locked_world)) = true ∧
  silent (at_path (cwd locked_world)) = false.
Proof.
  intros w.
  destruct C1_missing_directory_skipped as (Hlocal & Hglobal & Hfail & _).
  assert (height (at_path (cwd w)) ≤ WALK_DEPTH) as Hh by (vm_compute; lia).
  assert (height (at_path (cwd locked_world)) ≤ WALK_DEPTH) as Hh'
    by (vm_compute; lia).
  split; [|split; [|split; [|split]]]; [| | |reflexivity..].
  - split_and!; [reflexivity..|].
    apply (Hlocal 0 (at_path vanished_root) [] BRANCH (u "gone") [u "proj/"]);
      reflexivity.
  - destruct (Hglobal w eq_refl Hh) as (text & Ht & Hrun).
    assert (text = join NEWLINE [u "proj/"; u "├── gone"; u "└── z.txt"])
      as -> by (vm_compute in Ht; by injection Ht as <-).
    split_and!; [reflexivity|exact Hh|reflexivity|].
    eapply Hrun; reflexivity.
  - destruct (Hfail locked_world PermissionError eq_refl Hh')
      as (_ & _ & Hg & _ & Hd).
    split_and!; [reflexivity|exact Hh'|reflexivity|exact Hg|exact Hd].
Defined.

(** ** Empty directories and a missing root *)

(** C9: a directory whose listing is empty once the ignored names are
    gone adds no line and raises nothing: [pointers] is then the single
    [LAST] (repeating a list [-1] times gives the empty list), and zipping
    it with no items leaves nothing to loop over. *)
Theorem C9_empty_directory (fuel : nat) (d : node) (names : list (list N))
    (prefix : list N) (lines : list (list N)) :
  os_listdir d = inr names →
  filter not_ignored names = [] →
  walk_dir (S fuel) d prefix lines = Return ((), lines) ∧
  pointers (sorted (filter not_ignored names)) = [LAST] ∧
  list_mul [BRANCH] (Z.of_nat (length (sorted (filter not_ignored names))) - 1)
  = [] ∧
  list_mul [BRANCH] (-1) = [] ∧
  zip (pointers (sorted (filter not_ignored names)))
    (sorted (filter not_ignored names)) = [].
Proof.
  intros Hl He. simpl. rewrite Hl, He. by vm_compute.
Qed.

Lemma C9_empty_directory_witness :
  let d := Dir [(u ".git", Dir [(u "HEAD", File)]); (u ".DS_Store", File)] in
  os_listdir d = inr [u ".git"; u ".DS_Store"] ∧
  filter not_ignored [u ".git"; u ".DS_Store"] = [] ∧
  walk_dir 1 d (u "│   ") [u "root/"; u "├── d"]
  = Return ((), [u "root/"; u "├── d"]).
Proof.
  intros d. split_and!; [reflexivity..|].
  apply (C9_empty_directory 0 d [u ".git"; u ".DS_Store"]); reflexivity.
Defined.

(** C10, as stated, fails: the root is missing because the working
    directory itself was removed; the rendering is the header alone, but
    the output file cannot be created either, and the run reports that
    instead of success. *)
Lemma C10_counterexample :
  os_listdir (at_path (cwd removed_world)) = inl FileNotFoundError ∧
  generate_tree (cwd removed_world) = Return (u "scratch/") ∧
  printed removed_world
  = [Scanning (u "scratch"); ErrorOccurred FileNotFoundError] ∧
  disk (main removed_world) = disk removed_world ∧
  ¬ reports_success removed_world.
Proof.
  assert (printed removed_world
          = [Scanning (u "scratch"); ErrorOccurred FileNotFoundError]) as Hp
    by reflexivity.
  split_and!; [reflexivity..|exact Hp|reflexivity|].
  unfold reports_success. rewrite Hp.
  intros [?|[?|?%elem_of_nil]%elem_of_cons]%elem_of_cons; done.
Qed.

(** C10, amended: when the root does not exist at listing time,
    [generate_tree] returns the header alone and raises nothing; the run
    then reports success exactly when the header can be encoded and the
    output file can be opened and takes the data, and it has then stored
    the header alone; when the output file cannot be opened, the run
    reports that exception and stores nothing. *)
Theorem C10_missing_root (root_dir : location) :
  os_listdir (at_path root_dir) = inl FileNotFoundError →
  tree_lines root_dir
  = Return [os_path_basename (os_path_abspath root_dir) ++ u "/"] ∧
  generate_tree root_dir
  = Return (os_path_basename (os_path_abspath root_dir) ++ u "/") ∧
  (∀ (w : world) (data : list byte),
     cwd w = root_dir →
     Utf8.encode (os_path_basename (os_path_abspath root_dir) ++ u "/")
     = Some data →
     open_fault w = None → write_fault w = None →
     reports_success w ∧
     disk (main w) = <[OUTPUT_FILENAME := data]> (disk w)) ∧
  (∀ (w : world),
     cwd w = root_dir →
     reports_success w ↔
     open_fault w = None ∧ write_fault w = None ∧
     is_Some (Utf8.encode
                (os_path_basename (os_path_abspath root_dir) ++ u "/"))) ∧
  (∀ (w : world) (e : exn),
     cwd w = root_dir → open_fault w = Some e →
     printed w
     = [ Scanning (os_path_basename (os_path_abspath root_dir));
         ErrorOccurred e ] ∧
     disk (main w) = disk w).
Proof.
  intros Hl.
  assert (tree_lines root_dir
          = Return [os_path_basename (os_path_abspath root_dir) ++ u "/"])
    as Hlines.
  { unfold tree_lines.
    by rewrite bind_append, WALK_DEPTH_eq, (walk_dir_listing_fails _ _ _ _ _ Hl). }
  assert (generate_tree root_dir
          = Return (os_path_basename (os_path_abspath root_dir) ++ u "/"))
    as Htext by (unfold generate_tree; by rewrite Hlines).
  split_and!; [done..| | |].
  - intros w data <- He Ho Hw.
    by destruct (run_success w _ data Htext He Ho Hw) as (? & ? & _).
  - intros w <-. split.
    + intros (text & data & Hg & He & Ho & Hw & _)%success_run.
      rewrite Htext in Hg. injection Hg as <-. by rewrite He.
    + intros (Ho & Hw & [data He]).
      by destruct (run_success w _ data Htext He Ho Hw) as (? & _).
  - intros w e <- Ho. destruct (main_run w) as (said & -> & Hrun).
    rewrite Htext, Ho in Hrun. by destruct Hrun as [-> ->].
Qed.

Lemma C10_missing_root_witness :
  let root_dir := Location (u "/tmp/scratch") Missing in
  let w := World root_dir ∅ None None [] in
  os_listdir (at_path root_dir) = inl FileNotFoundError ∧
  generate_tree root_dir = Return (u "scratch/") ∧
  reports_success w ∧
  disk (main w) !! OUTPUT_FILENAME = Some (list_byte_of_string "scratch/") ∧
  disk (main removed_world) = disk removed_world.
Proof.
  intros root_dir w.
  destruct (C10_missing_root root_dir eq_refl) as (_ & Htext & Hrun & _ & Hno).
  destruct (Hrun w (list_byte_of_string "scratch/") eq_refl eq_refl eq_refl
              eq_refl) as [Hs Hd].
  split_and!; [reflexivity|exact Htext|exact Hs| |].
  - rewrite Hd. apply lookup_insert_eq.
  - by destruct (Hno removed_world FileNotFoundError eq_refl eq_refl) as [_ ?].
Defined.

(** ** The output file *)

Lemma snoc_exists {A} (x : A) (l : list A) : ∃ l' y, x :: l = l' ++ [y].
Proof.
  revert x. induction l as [|z l IH]; intros x.
  - by exists [], x.
  - destruct (IH z) as (l' & y & ->). by exists (x :: l'), y.
Qed.

(** C8: a run that reports success has stored, under the name
    [project_structure.txt] in the working directory, the UTF-8 encoding of
    exactly the string the renderer returned, replacing whatever was stored
    under that name and touching no other file; the stored bytes end with
    the encoding of the final tree line, with nothing after it. *)
Theorem C8_output_file (w : world) :
  reports_success w →
  ∃ (text : list N) (data : list byte),
    generate_tree (cwd w) = Return text ∧
    Utf8.encode text = Some data ∧
    OUTPUT_FILENAME = u "project_structure.txt" ∧
    disk (main w) = <[OUTPUT_FILENAME := data]> (disk w) ∧
    disk (main w) !! OUTPUT_FILENAME = Some data ∧
    (∀ other, other ≠ OUTPUT_FILENAME →
       disk (main w) !! other = disk w !! other) ∧
    ∃ (lines : list (list N)) (final : list N) (before dfinal : list byte),
      tree_lines (cwd w) = Return (lines ++ [final]) ∧
      text = join NEWLINE (lines ++ [final]) ∧
      Utf8.encode final = Some dfinal ∧
      data = before ++ dfinal.
Proof.
  intros (text & data & Hg & He & _ & _ & Hd & _)%success_run.
  exists text, data. split_and!; [done..| | |].
  - rewrite Hd. apply lookup_insert_eq.
  - intros other Ho. rewrite Hd. by apply lookup_insert_ne.
  - destruct (generate_tree_Return _ _ Hg) as (ls & Hls & ->).
    pose proof (tree_lines_Return _ _ Hls) as Hshape.
    destruct (snoc_exists (header (cwd w))
                (map (render []) (rows (at_path (cwd w)))))
      as (lines & final & Hsnoc).
    rewrite Hsnoc in Hshape. subst ls.
    destruct (join_snoc NEWLINE lines final) as [before Hj].
    rewrite Hj, encode_app in He.
    destruct (Utf8.encode before) as [dbefore|]; [|done].
    destruct (Utf8.encode final) as [dfinal|] eqn:Hf; [|done].
    injection He as <-. by exists lines, final, dbefore, dfinal.
Qed.

Lemma C8_output_file_witness :
  reports_success stale_world ∧
  disk (main stale_world) !! OUTPUT_FILENAME
  = Some (list_byte_of_string "root/
├── a.txt
├── b.txt
└── sub
    └── c.txt") ∧
  disk (main stale_world) !! u "notes.txt" = Some (list_byte_of_string "keep").
Proof.
  assert (reports_success stale_world) as Hs.
  { unfold reports_success.
    assert (printed stale_world
            = Scanning (u "root") :: success_messages example_text) as ->
      by (by vm_compute).
    right. left. }
  destruct (C8_output_file stale_world Hs)
    as (text & data & Hg & He & _ & _ & Hd & Hother & _).
  assert (text = example_text) as ->
    by (vm_compute in Hg; by injection Hg as <-).
  split_and!; [exact Hs| |].
  - rewrite Hd, <- He. by vm_compute.
  - rewrite Hother by done. by vm_compute.
Defined.

(** ** Ignored names *)

Lemma ignored_exactly (item : list N) :
  ignored item = true ↔
  item ∈ [ u ".git"; u ".vscode"; u "__pycache__"; u ".idea";
           u "node_modules"; u "build"; u "dist"; u ".DS_Store"; u "venv";
           u ".env"; u "generate_structure.py"; u "project_structure.txt" ].
Proof.
  unfold ignored, IGNORE_LIST. rewrite bool_decide_eq_true.
  apply elem_of_list_to_set.
Qed.

Lemma not_ignored_false (item : list N) :
  not_ignored item ↔ ignored item = false.
Proof. unfold ignored. by rewrite bool_decide_eq_false. Qed.

(** C3: the rendering is the rendering of the tree from which every entry
    with a name in [IGNORE_LIST] has been deleted together with all below
    it, at every depth; every line renders an entry none of whose names,
    its own or an ancestor's, is ignored; the entries shown are those
    reachable through names that are not ignored; and a name is ignored
    exactly when it equals one of the twelve listed names. *)
Theorem C3_ignored_entries_invisible (root_dir : location) :
  let pruned :=
    Location (os_path_abspath root_dir) (prune (at_path root_dir)) in
  (∀ item, ignored item = true ↔
     item ∈ [ u ".git"; u ".vscode"; u "__pycache__"; u ".idea";
              u "node_modules"; u "build"; u "dist"; u ".DS_Store";
              u "venv"; u ".env"; u "generate_structure.py";
              u "project_structure.txt" ]) ∧
  generate_tree root_dir = generate_tree pruned ∧
  (∀ path, path ∈ reachable (at_path pruned) ↔
     path ∈ reachable (at_path root_dir) ∧
     Forall (λ nm, ignored nm = false) path) ∧
  (∀ lines, tree_lines root_dir = Return lines →
     ∃ rs, lines = header root_dir :: map (render []) rs ∧
       Forall (λ r, Forall (λ nm, ignored nm = false) (row_path r)) rs ∧
       (distinct (at_path root_dir) = true →
        row_path <$> rs ≡ₚ reachable (at_path pruned))).
Proof.
  intros pruned. split_and!.
  - apply ignored_exactly.
  - symmetry. apply generate_tree_prune.
  - intros path. simpl. rewrite reachable_prune.
    by rewrite (Forall_iff _ _ _ not_ignored_false).
  - intros lines Hl. rewrite <- tree_lines_prune in Hl.
    apply tree_lines_Return in Hl. simpl in Hl.
    exists (rows (prune (at_path root_dir))). split_and!; [done| |].
    + apply Forall_forall. intros r Hr%row_path_not_ignored.
      by apply (Forall_iff _ _ _ not_ignored_false).
    + intros Hd. apply rows_reachable; [apply clean_prune|].
      by apply distinct_prune.
Qed.

Lemma C3_ignored_entries_invisible_witness :
  distinct (at_path cluttered_root) = true ∧
  tree_lines cluttered_root
  = Return [ u "app/"; u "├── .GIT"; u "├── dist.txt"; u "└── src";
             u "    ├── builds"; u "    └── main.py" ] ∧
  ∃ rs,
    row_path <$> rs
    ≡ₚ [ [u ".GIT"]; [u "src"]; [u "src"; u "builds"];
         [u "src"; u "main.py"]; [u "dist.txt"] ] ∧
    Forall (λ r, Forall (λ nm, ignored nm = false) (row_path r)) rs.
Proof.
  assert (tree_lines cluttered_root
          = Return [ u "app/"; u "├── .GIT"; u "├── dist.txt"; u "└── src";
                     u "    ├── builds"; u "    └── main.py" ]) as Hl
    by (by vm_compute).
  split_and!; [reflexivity|exact Hl|].
  destruct (C3_ignored_entries_invisible cluttered_root) as (_ & _ & _ & H).
  destruct (H _ Hl) as (rs & _ & Hall & Hperm).
  exists rs. split; [|exact Hall]. exact (Hperm eq_refl).
Defined.

(** ** Every entry, once *)

Lemma listable_silent (t : node) : listable t = true → silent t = true.
Proof.
  induction t as [t IH] using node_depth_ind.
  destruct t as [| |entries|e]; [done..| |done].
  simpl. intros Hl. apply forallb_intro. intros e He.
  pose proof (forallb_elem _ _ _ Hl He) as Hle. simpl in Hle.
  destruct (os_path_isdir e.2); simpl in *.
  - rewrite (IH entries e eq_refl He Hle). by rewrite orb_true_r.
  - by rewrite orb_true_r.
Qed.

(** C4, as stated, fails: in a project of 1100 directories one inside
    the other no name is ignored and every listing succeeds, but the walk
    runs out of stack on the way down; the rendering ends with
    [RecursionError] and names no entry at all. *)
Lemma C4_counterexample :
  clean (at_path deep_root) = true ∧
  listable (at_path deep_root) = true ∧
  distinct (at_path deep_root) = true ∧
  length (reachable (at_path deep_root)) = 1100 ∧
  tree_lines deep_root = Raise RecursionError ∧
  generate_tree deep_root = Raise RecursionError.
Proof. by vm_compute. Qed.

(** C4, amended: in a tree with no ignored name and no failing listing
    that nests no deeper than the stack allows, the lines below the header
    are the renderings of rows that name, each exactly once, the entries
    reachable from the root by recursive descent. *)
Theorem C4_every_entry_once (root_dir : location) :
  clean (at_path root_dir) = true →
  listable (at_path root_dir) = true →
  distinct (at_path root_dir) = true →
  height (at_path root_dir) ≤ WALK_DEPTH →
  ∃ rs,
    tree_lines root_dir = Return (header root_dir :: map (render []) rs) ∧
    generate_tree root_dir
    = Return (join NEWLINE (header root_dir :: map (render []) rs)) ∧
    row_path <$> rs ≡ₚ reachable (at_path root_dir) ∧
    NoDup (row_path <$> rs) ∧
    length rs = length (reachable (at_path root_dir)).
Proof.
  intros Hc Hl%listable_silent Hd Hh. exists (rows (at_path root_dir)).
  pose proof (rows_reachable _ Hc Hd) as Hperm.
  split_and!.
  - by apply tree_lines_rows.
  - by apply generate_tree_rows.
  - done.
  - rewrite Hperm. by apply NoDup_reachable.
  - by rewrite <- Hperm, length_fmap.
Qed.

Lemma C4_every_entry_once_witness :
  let root_dir := Location (u "/home/me/root") (Dir example_entries) in
  clean (at_path root_dir) = true ∧
  listable (at_path root_dir) = true ∧
  distinct (at_path root_dir) = true ∧
  height (at_path root_dir) ≤ WALK_DEPTH ∧
  reachable (at_path root_dir)
  = [ [u "b.txt"]; [u "a.txt"]; [u "sub"]; [u "sub"; u "c.txt"] ] ∧
  ∃ rs,
    tree_lines root_dir = Return (header root_dir :: map (render []) rs) ∧
    row_path <$> rs ≡ₚ reachable (at_path root_dir) ∧
    length rs = 4.
Proof.
  intros root_dir.
  assert (height (at_path root_dir) ≤ WALK_DEPTH) as Hh by (vm_compute; lia).
  split_and!; [reflexivity..|exact Hh|reflexivity|].
  destruct (C4_every_entry_once root_dir eq_refl eq_refl eq_refl Hh)
    as (rs & Hl & _ & Hp & _ & Hn).
  exists rs. split_and!; [exact Hl|exact Hp|exact Hn].
Defined.

(** ** Siblings *)

Section siblings.

Lemma items_of_not_Dir (d : node) :
  (∀ entries, d ≠ Dir entries) → items_of d = [].
Proof. destruct d as [| |entries|e]; try done. intros H. by destruct (H entries). Qed.

Lemma rows_rounds (d : node) :
  rows d = mark_last (items_of d) ≫= round_rows d.
Proof. destruct d as [| |entries|e]; try done. apply rows_Dir. Qed.

(** The block of a child, read off the rows. *)
Lemma round_block (fuel : nat) (d : node) (prefix : list N)
    (il : list N * bool) :
  silent d = true → height d ≤ S fuel → il ∈ mark_last (items_of d) →
  child_block fuel d prefix il.1 (pointer_of il.2)
    (render prefix <$> round_rows d il).
Proof.
  intros Hs Hh Hin. destruct il as [item last]. simpl fst; simpl snd.
  apply elem_of_mark_last in Hin.
  exists (render (prefix ++ extension_of last)
            <$> rows (os_path_join d item)).
  split.
  - unfold round_rows. simpl fst; simpl snd.
    rewrite fmap_cons. f_equal.
    change (map ?f ?l) with (f <$> l).
    rewrite <- list_fmap_compose. apply list_fmap_ext.
    intros i r _. simpl. by rewrite render_below.
  - rewrite extension_of_pointer.
    destruct (os_path_isdir _) eqn:Hd.
    + destruct (isdir_join _ _ Hd) as (entries & -> & _).
      rewrite walk_dir_rows; [done| |].
      * by apply silent_child.
      * apply height_child in Hd. lia.
    + by rewrite (rows_not_isdir _ Hd).
Qed.

(** A visit returns the blocks of the filtered, sorted children, one
    after the other. *)
Lemma walk_dir_child_blocks (fuel : nat) (d : node) (prefix : list N)
    (lines : list (list N)) :
  silent d = true → height d ≤ S fuel →
  ∃ blocks,
    walk_dir (S fuel) d prefix lines = Return ((), lines ++ mjoin blocks) ∧
    Forall2 (λ il block,
               child_block fuel d prefix il.1 (pointer_of il.2) block)
      (mark_last (items_of d)) blocks.
Proof.
  intros Hs Hh.
  exists ((λ il, render prefix <$> round_rows d il) <$> mark_last (items_of d)).
  split.
  - rewrite (walk_dir_rows _ _ _ _ Hs Hh), rows_rounds. do 3 f_equal.
    change (map ?f ?l) with (f <$> l).
    rewrite fmap_bind, list_join_bind, list_fmap_bind. done.
  - apply Forall2_fmap_r, Forall_Forall2_diag, Forall_forall.
    intros il Hil. by apply round_block.
Qed.

End siblings.

(** C5: a visit to a directory appends, for its filtered children taken in
    ascending order of name, one block each: the child's line followed by
    the whole of the child's subtree, before the next sibling's line. *)
Theorem C5_siblings_ascending (fuel : nat) (d : node) (prefix : list N)
    (lines : list (list N)) :
  silent d = true → height d ≤ S fuel →
  StronglySorted str_le (items_of d) ∧
  (∀ names, os_listdir d = inr names →
     items_of d ≡ₚ filter not_ignored names) ∧
  ∃ blocks,
    walk_dir (S fuel) d prefix lines = Return ((), lines ++ mjoin blocks) ∧
    Forall2 (λ item block,
               ∃ pointer, child_block fuel d prefix item pointer block)
      (items_of d) blocks.
Proof.
  intros Hs Hh. split_and!.
  - unfold items_of. destruct (os_listdir d); [constructor|].
    apply Sorted_StronglySorted; [apply _|apply sorted_Sorted].
  - intros names Hn. unfold items_of. rewrite Hn. apply sorted_Permutation.
  - destruct (walk_dir_child_blocks fuel d prefix lines Hs Hh)
      as (blocks & Hw & Hb).
    exists blocks. split; [done|].
    rewrite <- (mark_last_fst (items_of d)). apply Forall2_fmap_l.
    eapply Forall2_impl; [exact Hb|]. intros il block Hblock.
    by exists (pointer_of il.2).
Qed.

Lemma C5_siblings_ascending_witness :
  let d := Dir example_entries in
  silent d = true ∧ height d ≤ 3 ∧
  items_of d = [u "a.txt"; u "b.txt"; u "sub"] ∧
  ∃ blocks,
    walk_dir 3 d [] [u "root/"] = Return ((), [u "root/"] ++ mjoin blocks) ∧
    Forall2 (λ item block, ∃ pointer, child_block 2 d [] item pointer block)
      [u "a.txt"; u "b.txt"; u "sub"] blocks.
Proof.
  intros d.
  assert (height d ≤ 3) as Hh by (vm_compute; lia).
  split_and!; [reflexivity|exact Hh|reflexivity|].
  destruct (C5_siblings_ascending 2 d [] [u "root/"] eq_refl Hh)
    as (_ & _ & blocks & Hw & Hb).
  exists blocks. split; [exact Hw|exact Hb].
Defined.

(** C6: in a visit to a directory with at least one filtered child, the
    block of the final child starts with the line
    [prefix ++ "└── " ++ name], the block of every other child with
    [prefix ++ "├── " ++ name]. *)
Theorem C6_pointer_of_last_child (fuel : nat) (d : node) (prefix : list N)
    (lines : list (list N)) :
  silent d = true → height d ≤ S fuel → items_of d ≠ [] →
  ∃ blocks,
    walk_dir (S fuel) d prefix lines = Return ((), lines ++ mjoin blocks) ∧
    length blocks = length (items_of d) ∧
    ∀ i item, items_of d !! i = Some item →
      ∃ block,
        blocks !! i = Some block ∧
        child_block fuel d prefix item
          (if bool_decide (S i = length (items_of d)) then u "└── "
           else u "├── ")
          block ∧
        block !! 0
        = Some (prefix
                ++ (if bool_decide (S i = length (items_of d)) then u "└── "
                    else u "├── ")
                ++ item).
Proof.
  intros Hs Hh _.
  destruct (walk_dir_child_blocks fuel d prefix lines Hs Hh)
    as (blocks & Hw & Hb).
  exists blocks. split_and!; [done| |].
  - by rewrite <- (Forall2_length _ _ _ Hb), length_mark_last.
  - intros i item Hi. apply mark_last_lookup in Hi.
    destruct (Forall2_lookup_l _ _ _ _ _ Hb Hi) as (block & Hblock & Hcb).
    exists block. simpl in Hcb.
    assert (pointer_of (bool_decide (S i = length (items_of d)))
            = if bool_decide (S i = length (items_of d)) then u "└── "
              else u "├── ") as Hp by (by destruct (bool_decide _)).
    rewrite Hp in Hcb. split_and!; [done..|].
    by destruct Hcb as (sub & -> & _).
Qed.

Lemma C6_pointer_of_last_child_witness :
  let d := Dir example_entries in
  silent d = true ∧ height d ≤ 3 ∧
  items_of d = [u "a.txt"; u "b.txt"; u "sub"] ∧
  ∃ blocks,
    walk_dir 3 d (u "│   ") [] = Return ((), mjoin blocks) ∧
    (∃ block, blocks !! 0 = Some block ∧
              block !! 0 = Some (u "│   " ++ u "├── " ++ u "a.txt")) ∧
    (∃ block, blocks !! 2 = Some block ∧
              block !! 0 = Some (u "│   " ++ u "└── " ++ u "sub")).
Proof.
  intros d.
  assert (height d ≤ 3) as Hh by (vm_compute; lia).
  assert (items_of d = [u "a.txt"; u "b.txt"; u "sub"]) as Hitems
    by reflexivity.
  assert (items_of d ≠ []) as Hne by (by rewrite Hitems).
  split_and!; [reflexivity|exact Hh|exact Hitems|].
  destruct (C6_pointer_of_last_child 2 d (u "│   ") [] eq_refl Hh Hne)
    as (blocks & Hw & _ & Hptr).
  exists blocks. split_and!; [exact Hw| |].
  - destruct (Hptr 0 (u "a.txt") eq_refl) as (block & Hb & _ & Hline).
    exists block. split; [exact Hb|exact Hline].
  - destruct (Hptr 2 (u "sub") eq_refl) as (block & Hb & _ & Hline).
    exists block. split; [exact Hb|exact Hline].
Defined.

(** ** Indentation *)

Section pruned_rows.

Lemma bind_ext_elem {A B} (f g : A → list B) (l : list A) :
  (∀ x, x ∈ l → f x = g x) → l ≫= f = l ≫= g.
Proof.
  induction l as [|x l IH]; intros Hfg; [done|].
  rewrite !bind_cons, Hfg by left. f_equal.
  apply IH. intros y Hy. apply Hfg. by right.
Qed.

(** The rows never mention what pruning deletes. *)
Lemma rows_prune (t : node) : rows (prune t) = rows t.
Proof.
  induction t as [t IH] using node_depth_ind.
  rewrite (rows_rounds (prune t)), (rows_rounds t), items_of_prune.
  apply bind_ext_elem. intros [item last] Hin.
  apply elem_of_mark_last in Hin.
  pose proof Hin as [Hni _]%elem_of_items_of.
  unfold round_rows. cbn [fst snd]. rewrite (join_prune _ _ Hni).
  do 2 f_equal.
  destruct t as [| |entries|e]; [done..| |done]. simpl.
  destruct (entry_named item entries) as [n|] eqn:E; [|done].
  apply (IH entries (item, n) eq_refl). by apply entry_named_elem.
Qed.

(** The rows are the entries reachable through names that are not
    ignored. *)
Lemma rows_reachable_prune (t : node) :
  distinct t = true → row_path <$> rows t ≡ₚ reachable (prune t).
Proof.
  intros Hd. rewrite <- rows_prune.
  apply rows_reachable; [apply clean_prune|by apply distinct_prune].
Qed.

Lemma lineage_own (r : row) :
  lineage r !! length (ancestors r) = Some (row_name r, is_last r).
Proof. unfold lineage. by rewrite lookup_app_r, Nat.sub_diag by lia. Qed.

Lemma take_row_path (r : row) :
  take (length (ancestors r)) (row_path r) = (ancestors r).*1.
Proof.
  unfold row_path. rewrite take_app_le by (by rewrite length_fmap).
  apply take_ge. by rewrite length_fmap.
Qed.

End pruned_rows.

(** C7: the lines below the header are, one for one, the entries
    reachable from the root through names that are not ignored, each
    rendered as an indentation, a pointer and its name, where the names
    above it lead from the root to the directory that lists it; the
    indentation is four characters for each directory between the root and
    the entry; the block of the directory at depth [k] is ["│   "] or
    ["    "], and it starts with the bar exactly when that directory was
    not the final child of its own directory.  The loop passes
    [prefix ++ "│   "] down after a child with the pointer ["├── "] and
    [prefix ++ "    "] after any other. *)
Theorem C7_indentation (root_dir : location) (lines : list (list N)) :
  distinct (at_path root_dir) = true →
  tree_lines root_dir = Return lines →
  (∃ rs,
     lines = header root_dir :: map (render []) rs ∧
     row_path <$> rs ≡ₚ reachable (prune (at_path root_dir)) ∧
     Forall (λ r,
       render [] r = indent r ++ pointer_of (is_last r) ++ row_name r ∧
       length (indent r) = 4 * length (ancestors r) ∧
       S (length (ancestors r)) = length (row_path r) ∧
       (let parent := resolve (at_path root_dir) (ancestors r).*1 in
        row_name r ∈ items_of parent ∧
        (is_last r = true ↔ final_in parent (row_name r))) ∧
       ∀ k nm last, ancestors r !! k = Some (nm, last) →
         let dir_k := resolve (at_path root_dir) (take k (row_path r)) in
         row_path r !! k = Some nm ∧
         nm ∈ items_of dir_k ∧
         os_path_isdir (os_path_join dir_k nm) = true ∧
         (last = true ↔ final_in dir_k nm) ∧
         take 4 (drop (4 * k) (indent r))
         = (if last then u "    " else u "│   ") ∧
         (indent r !! (4 * k) = Some CONTINUATION_BAR ↔ ¬ final_in dir_k nm))
       rs) ∧
  (∀ walk current prefix pointer item ls,
     os_path_isdir (os_path_join current item) = true →
     loop_body walk current prefix (pointer, item) ls
     = walk (os_path_join current item)
         (prefix ++ if decide (pointer = u "├── ") then u "│   "
                    else u "    ")
         (ls ++ [prefix ++ pointer ++ item])).
Proof.
  intros Hd Hl. split.
  - apply tree_lines_Return in Hl. exists (rows (at_path root_dir)).
    split_and!; [done|by apply rows_reachable_prune|].
    apply Forall_forall. intros r Hr. split_and!.
    + done.
    + apply length_indent.
    + unfold row_path. rewrite length_app, length_fmap. simpl. lia.
    + destruct (rows_lineage _ _ _ _ _ Hd Hr (lineage_own r))
        as (Hitem & Hfin & _).
      rewrite take_row_path in Hitem, Hfin. done.
    + intros k nm last Hk dir_k.
      assert (lineage r !! k = Some (nm, last)) as Hlin
        by (unfold lineage; by apply lookup_app_l_Some).
      destruct (rows_lineage _ _ _ _ _ Hd Hr Hlin) as (Hitem & Hfin & Hdir).
      fold dir_k in Hitem, Hfin.
      assert (row_path r !! k = Some nm) as Hnm.
      { rewrite row_path_lineage, list_lookup_fmap, Hlin. done. }
      split_and!; [done..| | | |].
      * specialize (Hdir (lookup_lt_Some _ _ _ Hk)).
        rewrite (take_S_r _ _ _ Hnm) in Hdir.
        unfold resolve in Hdir. rewrite foldl_app in Hdir. done.
      * done.
      * rewrite (indent_block _ _ _ _ Hk). by destruct last.
      * rewrite (indent_bar _ _ _ _ Hk), <- Hfin. by destruct last.
  - intros walk current prefix pointer item ls Hdir.
    unfold loop_body. by rewrite bind_append, Hdir.
Qed.

(** A project three levels deep. *)
Lemma C7_indentation_witness :
  let root_dir :=
    Location (u "/srv/app")
      (Dir [ (u "docs", Dir [ (u "api", Dir [(u "index.md", File)]);
                              (u "readme.md", File) ]);
             (u "setup.py", File) ]) in
  distinct (at_path root_dir) = true ∧
  tree_lines root_dir
  = Return [ u "app/"; u "├── docs"; u "│   ├── api";
             u "│   │   └── index.md"; u "│   └── readme.md";
             u "└── setup.py" ] ∧
  (∃ rs,
     map (render []) rs
     = [ u "├── docs"; u "│   ├── api"; u "│   │   └── index.md";
         u "│   └── readme.md"; u "└── setup.py" ] ∧
     row_path <$> rs
     ≡ₚ [ [u "docs"]; [u "docs"; u "api"]; [u "docs"; u "api"; u "index.md"];
          [u "docs"; u "readme.md"]; [u "setup.py"] ] ∧
     Forall (λ r, length (indent r) = 4 * length (ancestors r)) rs) ∧
  os_path_isdir (os_path_join (at_path root_dir) (u "docs")) = true ∧
  loop_body (walk_dir 2) (at_path root_dir) [] (u "├── ", u "docs") [u "app/"]
  = walk_dir 2 (os_path_join (at_path root_dir) (u "docs")) (u "│   ")
      [u "app/"; u "├── docs"].
Proof.
  intros root_dir.
  assert (tree_lines root_dir
          = Return [ u "app/"; u "├── docs"; u "│   ├── api";
                     u "│   │   └── index.md"; u "│   └── readme.md";
                     u "└── setup.py" ]) as Hl by (by vm_compute).
  destruct (C7_indentation root_dir _ eq_refl Hl)
    as [(rs & Hrs & Hperm & Hall) Hloop].
  split_and!; [reflexivity|exact Hl| |reflexivity|].
  - exists rs. split_and!.
    + by injection Hrs as <-.
    + exact Hperm.
    + eapply Forall_impl; [exact Hall|]. by intros r (_ & Hlen & _).
  - apply (Hloop (walk_dir 2) (at_path root_dir) [] (u "├── ") (u "docs")
             [u "app/"]).
    reflexivity.
Defined.

(** * Further properties of the script *)

(** ** What the walk does to the lines *)

Section walk_laws.

Lemma shifted_nil (lines : list (list N)) (o : outcome (unit * list (list N))) :
  shifted [] lines o
  = match o with
    | Return (_, sub) => Return ((), lines ++ sub)
    | Raise e => Raise e
    | OutOfFuel => OutOfFuel
    end.
Proof.
  destruct o as [[[] sub]| |]; [|done..]. simpl. do 3 f_equal.
  induction sub as [|l sub IH]; [done|]. simpl. by rewrite IH.
Qed.

Lemma for_each_framed {A} (l : list A) (b : A → M unit) :
  (∀ x ls, x ∈ l → b x ls = shifted [] ls (b x [])) →
  ∀ ls, for_each l b ls = shifted [] ls (for_each l b []).
Proof.
  induction l as [|x l IH]; intros H ls.
  - simpl. by rewrite app_nil_r.
  - rewrite !for_each_cons, (H x ls) by left.
    destruct (b x []) as [[[] sx]| |] eqn:Hx; [|done..].
    assert (∀ ls', for_each l b ls' = shifted [] ls' (for_each l b []))
      as IH' by (apply IH; intros y ls' Hy; apply H; by right).
    rewrite shifted_nil, (IH' (ls ++ sx)), (IH' sx), !shifted_nil.
    destruct (for_each l b []) as [[[] st]| |]; [|done..].
    by rewrite app_assoc.
Qed.

Lemma for_each_shifted {A} (prefix : list N) (l : list A)
    (b1 b2 : A → M unit) (lines : list (list N)) :
  (∀ x ls, x ∈ l → b1 x ls = shifted prefix ls (b2 x [])) →
  (∀ x ls, x ∈ l → b2 x ls = shifted [] ls (b2 x [])) →
  for_each l b1 lines = shifted prefix lines (for_each l b2 []).
Proof.
  revert lines. induction l as [|x l IH]; intros lines H1 H2.
  - simpl. by rewrite app_nil_r.
  - rewrite !for_each_cons, (H1 x lines) by left.
    destruct (b2 x []) as [[[] sx]| |] eqn:Hx; [|done..]. simpl.
    assert (∀ ls, for_each l b2 ls = shifted [] ls (for_each l b2 []))
      as Hf by (apply for_each_framed; intros y ls Hy; apply H2; by right).
    rewrite IH, (Hf sx), shifted_nil.
    + destruct (for_each l b2 []) as [[[] st]| |]; [|done..]. simpl.
      by rewrite map_app, <- !app_assoc.
    + intros y ls Hy. apply H1. by right.
    + intros y ls Hy. apply H2. by right.
Qed.

Lemma walk_dir_shifted (fuel : nat) (t : node) (prefix : list N)
    (lines : list (list N)) :
  walk_dir fuel t prefix lines = shifted prefix lines (walk_dir fuel t [] []).
Proof.
  revert t prefix lines.
  induction fuel as [|fuel IH]; intros t prefix lines; [done|].
  simpl. destruct (os_listdir t) as [[]|names]; try done.
  { simpl. by rewrite app_nil_r. }
  assert (∀ (p : list N) (x : list N * list N) ls,
            loop_body (walk_dir fuel) t p x ls
            = shifted p ls (loop_body (walk_dir fuel) t [] x [])) as Hbody.
  { intros p [pointer item] ls. unfold loop_body. rewrite !bind_append.
    destruct (os_path_isdir _).
    - rewrite (IH _ (p ++ _) (ls ++ _)), (IH _ ([] ++ _) ([] ++ _)).
      destruct (walk_dir fuel _ [] []) as [[[] sub]| |]; [|done..]. simpl.
      rewrite <- app_assoc. do 3 f_equal. simpl. f_equal.
      rewrite map_map. apply map_ext. intros l. by rewrite app_assoc.
    - reflexivity. }
  apply for_each_shifted; intros x ls _; apply Hbody.
Qed.

Lemma for_each_never {A} (e0 : exn) (l : list A) (body : A → M unit) lines :
  (∀ x ls, x ∈ l → body x ls ≠ Raise e0) →
  for_each l body lines ≠ Raise e0.
Proof.
  revert lines. induction l as [|x l IH]; intros lines Hb; [done|].
  rewrite for_each_cons. specialize (Hb x lines (list_elem_of_here _ _)) as Hx.
  destruct (body x lines) as [[[] ?]| |]; [|done..].
  apply IH. intros y ls Hy. apply Hb. by right.
Qed.

Lemma walk_dir_never_FileNotFoundError (fuel : nat) (t : node)
    (prefix : list N) (lines : list (list N)) :
  walk_dir fuel t prefix lines ≠ Raise FileNotFoundError.
Proof.
  revert t prefix lines.
  induction fuel as [|fuel IH]; intros t prefix lines; [done|].
  simpl. destruct (os_listdir t) as [[]|names]; try done.
  apply for_each_never. intros [pointer item] ls _.
  unfold loop_body. rewrite bind_append.
  destruct (os_path_isdir _); [apply IH|done].
Qed.

End walk_laws.

(** X1: rendering a directory under a prefix and after earlier lines is
    rendering it alone, putting the prefix in front of each of its lines
    and the earlier lines, untouched, in front of the result; an exception
    is the same either way. *)
Theorem X1_walk_dir_prefix_law (fuel : nat) (t : node) (prefix : list N)
    (lines : list (list N)) :
  walk_dir fuel t prefix lines
  = match walk_dir fuel t [] [] with
    | Return (_, sub) => Return ((), lines ++ map (app prefix) sub)
    | Raise e => Raise e
    | OutOfFuel => OutOfFuel
    end.
Proof. apply walk_dir_shifted. Qed.

(** X2: whatever [walk_dir] raises, it is not [FileNotFoundError]: a
    listing that raises it, at any depth, is skipped and never ends the
    walk. *)
Theorem X2_walk_dir_keeps_FileNotFoundError (fuel : nat) (t : node)
    (prefix : list N) (lines : list (list N)) (e : exn) :
  walk_dir fuel t prefix lines = Raise e → e ≠ FileNotFoundError.
Proof.
  intros Hw ->. by apply walk_dir_never_FileNotFoundError in Hw.
Qed.

Lemma X2_walk_dir_keeps_FileNotFoundError_witness :
  walk_dir 2 (at_path locked_root) [] [u "proj/"] = Raise PermissionError ∧
  PermissionError ≠ FileNotFoundError ∧
  walk_dir 2 (at_path vanished_root) [] [u "proj/"]
  = Return ((), [u "proj/"; u "├── gone"; u "└── z.txt"]).
Proof.
  assert (walk_dir 2 (at_path locked_root) [] [u "proj/"]
          = Raise PermissionError) as Hw by reflexivity.
  split_and!; [exact Hw| |reflexivity].
  exact (X2_walk_dir_keeps_FileNotFoundError 2 (at_path locked_root) []
           [u "proj/"] PermissionError Hw).
Defined.

(** X3: the loop visits every filtered child: [pointers] has as many
    members as there are items (one when there is none), so the [zip]
    drops no item and keeps their order. *)
Theorem X3_zip_keeps_every_item (items : list (list N)) :
  length (pointers items) = max 1 (length items) ∧
  (zip (pointers items) items).*2 = items ∧
  last (pointers items) = Some LAST ∧
  Forall (λ p, p = BRANCH) (take (length items - 1) (pointers items)).
Proof.
  unfold pointers. rewrite list_mul_singleton. split_and!.
  - rewrite length_app, length_replicate. simpl. lia.
  - rewrite <- (list_mul_singleton BRANCH). fold (pointers items).
    rewrite zip_pointers. rewrite <- (mark_last_fst items) at 2.
    change (map ?f ?l) with (f <$> l). rewrite <- list_fmap_compose.
    by apply list_fmap_ext.
  - apply last_snoc.
  - replace (Z.to_nat (Z.of_nat (length items) - 1)) with (length items - 1)
      by lia.
    rewrite take_app_le by (rewrite length_replicate; lia).
    rewrite take_ge by (rewrite length_replicate; lia).
    apply Forall_forall. by intros p [-> _]%elem_of_replicate.
Qed.

(** ** What a run leaves behind *)

(** X4: a run changes no stored file other than the output file, and not
    even that one when rendering raises or the output file cannot be
    opened. *)
Theorem X4_driver_footprint (w : world) :
  cwd (main w) = cwd w ∧
  (∀ other, other ≠ OUTPUT_FILENAME →
     disk (main w) !! other = disk w !! other) ∧
  (∀ e, generate_tree (cwd w) = Raise e → disk (main w) = disk w) ∧
  (∀ e, open_fault w = Some e → disk (main w) = disk w).
Proof.
  destruct (main_run w) as (said & _ & Hrun). split_and!.
  - unfold main, write_text.
    destruct (generate_tree (cwd w)); simpl; [|done..].
    destruct (open_fault w); simpl; [done|].
    destruct (Utf8.encode _); simpl; [|done].
    by destruct (write_fault w) as [[??]|].
  - intros other Ho.
    destruct (generate_tree (cwd w)) as [text|e|]; [|by destruct Hrun as [_ ->]|done].
    destruct (open_fault w); [by destruct Hrun as [_ ->]|].
    destruct (Utf8.encode text);
      [destruct (write_fault w) as [[??]|]|];
      destruct Hrun as [_ ->]; by rewrite lookup_insert_ne.
  - intros e He. rewrite He in Hrun. by destruct Hrun.
  - intros e He. rewrite He in Hrun.
    destruct (generate_tree (cwd w)); [|by destruct Hrun|done].
    by destruct Hrun.
Qed.

Lemma X4_driver_footprint_witness :
  disk (main stale_world) !! u "notes.txt" = disk stale_world !! u "notes.txt" ∧
  disk (main locked_world) = disk locked_world ∧
  disk (main (World (cwd stale_world) (disk stale_world)
                (Some PermissionError) None []))
  = disk stale_world.
Proof.
  split_and!.
  - destruct (X4_driver_footprint stale_world) as (_ & H & _).
    apply H. discriminate.
  - destruct (X4_driver_footprint locked_world) as (_ & _ & H & _).
    apply (H PermissionError). reflexivity.
  - destruct (X4_driver_footprint
                (World (cwd stale_world) (disk stale_world)
                   (Some PermissionError) None [])) as (_ & _ & _ & H).
    apply (H PermissionError). reflexivity.
Defined.

(** X5: a run ends in one of three ways.  Either [os.getcwd()] or the
    first [print] raises, and that exception ends the run before anything
    is printed or written; or the scanning message is followed by the four
    messages of success, the preview being the very string whose encoding
    was stored; or it is followed by one error message and nothing else.
    A run never reports both success and failure. *)
Theorem X5_one_outcome (l : launch) :
  let w := surroundings l in
  match script l with
  | (Some e, w') =>
      (getcwd_fault l = Some e ∨
       (getcwd_fault l = None ∧ first_print_fault l = Some e)) ∧
      w' = w
  | (None, w') =>
      getcwd_fault l = None ∧ first_print_fault l = None ∧
      w' = main w ∧
      ((∃ text data,
          generate_tree (cwd w) = Return text ∧
          Utf8.encode text = Some data ∧
          disk w' !! OUTPUT_FILENAME = Some data ∧
          stdout w'
          = stdout w
            ++ [ Scanning (os_path_basename (os_path_abspath (cwd w)));
                 Success OUTPUT_FILENAME; PreviewHeader; Preview text;
                 PreviewFooter ]) ∨
       (∃ e,
          stdout w'
          = stdout w
            ++ [ Scanning (os_path_basename (os_path_abspath (cwd w)));
                 ErrorOccurred e ])) ∧
      (reports_success w ↔ ¬ reports_failure w)
  end.
Proof.
  intros w. unfold script. fold w.
  destruct (getcwd_fault l) as [e|]; [by auto|].
  destruct (first_print_fault l) as [e|]; [by auto|].
  split_and!; [done..| |].
  - rewrite (main_stdout w). destruct (main_run w) as (said & -> & Hrun).
    destruct (generate_tree (cwd w)) as [text|e|]; [| |done].
    + destruct (open_fault w); [right; destruct Hrun as [-> _]; eauto|].
      destruct (Utf8.encode text) as [data|] eqn:He;
        [destruct (write_fault w) as [[??]|]|];
        try (right; destruct Hrun as [-> _]; by eauto).
      left. destruct Hrun as [-> ->]. exists text, data.
      split_and!; [done..| |done]. apply lookup_insert_eq.
    + right. destruct Hrun as [-> _]. eauto.
  - destruct (main_run w) as (said & Hp & Hrun).
    assert ((∃ text, said = success_messages text) ∨
            (∃ e, said = [ErrorOccurred e])) as [[text ->]|[e ->]].
    { destruct (generate_tree (cwd w)) as [text|e|]; [| |done].
      - destruct (open_fault w); [right; destruct Hrun; eauto|].
        destruct (Utf8.encode text) as [data|];
          [destruct (write_fault w) as [[??]|]|];
          try (right; destruct Hrun; by eauto).
        left. destruct Hrun. eauto.
      - right. destruct Hrun. eauto. }
    + unfold reports_success, reports_failure. rewrite Hp. split.
      * intros _ [e Hin].
        repeat (apply elem_of_cons in Hin as [?|Hin]; [done|]).
        by apply elem_of_nil in Hin.
      * intros _. right. left.
    + unfold reports_success, reports_failure. rewrite Hp. split.
      * intros [?|[?|?%elem_of_nil]%elem_of_cons]%elem_of_cons; done.
      * intros Hn. destruct Hn. exists e. right. left.
Qed.

(** X6: when listing the root itself raises anything but
    [FileNotFoundError] (the root is a regular file, or may not be read),
    [generate_tree] raises that exception; the run reports it and stores
    nothing. *)
Theorem X6_root_listing_failure (root_dir : location) (e : exn) :
  os_listdir (at_path root_dir) = inl e →
  e ≠ FileNotFoundError →
  generate_tree root_dir = Raise e ∧
  ∀ w, cwd w = root_dir →
    printed w
    = [ Scanning (os_path_basename (os_path_abspath root_dir));
        ErrorOccurred e ] ∧
    disk (main w) = disk w.
Proof.
  intros Hl He.
  assert (generate_tree root_dir = Raise e) as Hg.
  { unfold generate_tree, tree_lines.
    rewrite bind_append, WALK_DEPTH_eq, (walk_dir_listing_fails _ _ _ _ _ Hl).
    by rewrite decide_False. }
  split; [done|]. intros w <-.
  destruct (main_run w) as (said & -> & Hrun). rewrite Hg in Hrun.
  by destruct Hrun as [-> ->].
Qed.

Lemma X6_root_listing_failure_witness :
  let root_dir := Location (u "/home/me/notes.txt") File in
  os_listdir (at_path root_dir) = inl NotADirectoryError ∧
  generate_tree root_dir = Raise NotADirectoryError ∧
  printed (World root_dir ∅ None None [])
  = [Scanning (u "notes.txt"); ErrorOccurred NotADirectoryError].
Proof.
  intros root_dir.
  destruct (X6_root_listing_failure root_dir NotADirectoryError eq_refl)
    as [Hg Hrun]; [discriminate|].
  split_and!; [reflexivity|exact Hg|].
  by destruct (Hrun (World root_dir ∅ None None []) eq_refl) as [-> _].
Defined.

(** X7: an entry of the root with an ignored name, whatever it is and
    wherever the listing puts it, changes nothing: the script and its
    output file, once they lie in the scanned directory, do not alter the
    next rendering. *)
Theorem X7_ignored_entry_changes_nothing (abspath : list N)
    (before after : list (list N * node)) (name : list N) (x : node) :
  ignored name = true →
  generate_tree (Location abspath (Dir (before ++ (name, x) :: after)))
  = generate_tree (Location abspath (Dir (before ++ after))).
Proof.
  intros Hi.
  rewrite <- (generate_tree_prune (Location abspath (Dir (before ++ _ :: _)))).
  rewrite <- (generate_tree_prune (Location abspath (Dir (before ++ after)))).
  cbn [at_path os_path_abspath].
  assert (prune (Dir (before ++ (name, x) :: after))
          = prune (Dir (before ++ after))) as ->; [|done].
  change (prune (Dir ?l))
    with (Dir (filter (λ e, not_ignored e.1) (map (λ e, (e.1, prune e.2)) l))).
  f_equal.
  rewrite !map_app, !filter_app, map_cons, filter_cons. cbn [fst snd].
  rewrite decide_False; [done|].
  unfold not_ignored. apply bool_decide_eq_true in Hi.
  intros Hn. exact (Hn Hi).
Qed.

Lemma X7_ignored_entry_changes_nothing_witness :
  ignored OUTPUT_FILENAME = true ∧
  generate_tree
    (Location (u "/home/me/root")
       (Dir ([(u "b.txt", File)] ++ (OUTPUT_FILENAME, File)
             :: [(u "a.txt", File); (u "sub", Dir [(u "c.txt", File)])])))
  = Return example_text.
Proof.
  split; [reflexivity|].
  rewrite (X7_ignored_entry_changes_nothing (u "/home/me/root")
             [(u "b.txt", File)]
             [(u "a.txt", File); (u "sub", Dir [(u "c.txt", File)])]
             OUTPUT_FILENAME File eq_refl).
  reflexivity.
Defined.

(** ** What can and what cannot be written *)

Section encoding.

Lemma encode_char_scalar (c : N) :
  is_Some (Utf8.encode_char c) ↔ scalar c = true.
Proof.
  unfold Utf8.encode_char, scalar.
  destruct (N.ltb_spec c 0x80), (N.ltb_spec c 0x800), (N.ltb_spec c 0x10000),
    (N.ltb_spec c 0x110000), (N.leb_spec 0xD800 c), (N.leb_spec c 0xDFFF);
    simpl; try lia; split; (by intros [? ?]) || (by intros ?) || eauto.
Qed.

(** The codec accepts a string exactly when all of it is scalar values. *)
Lemma encode_is_Some (s : list N) :
  is_Some (Utf8.encode s) ↔ ∀ c, c ∈ s → scalar c = true.
Proof.
  induction s as [|c s IH]; simpl.
  - split; [by intros _ c ?%elem_of_nil|eauto].
  - pose proof (encode_char_scalar c) as Hc.
    destruct (Utf8.encode_char c) as [bs|].
    + destruct (Utf8.encode s) as [rest|].
      * split; [|eauto]. intros _ c' [->|Hc']%elem_of_cons.
        -- apply Hc. eauto.
        -- apply IH; eauto.
      * split; [by intros [? ?]|]. intros Hall.
        assert (is_Some (@None (list byte))) as [? ?]; [|done].
        apply IH. intros c' Hc'. apply Hall. by right.
    + split; [by intros [? ?]|]. intros Hall.
      assert (is_Some (@None (list N))) as [? ?]; [|done].
      apply Hc, Hall. left.
Qed.


Lemma join_elem_of (sep : list N) (lines : list (list N)) (l : list N) (c : N) :
  l ∈ lines → c ∈ l → c ∈ join sep lines.
Proof.
  induction lines as [|k [|k' lines] IH]; [by intros ?%elem_of_nil| |].
  - intros ->%list_elem_of_singleton Hc. done.
  - change (join sep (k :: k' :: lines))
      with (k ++ sep ++ join sep (k' :: lines)).
    rewrite !elem_of_app. intros [->|Hl]%elem_of_cons Hc; [by left|].
    right. right. by apply IH.
Qed.


Lemma row_name_elem_of (r : row) (c : N) :
  c ∈ row_name r → c ∈ render [] r.
Proof. unfold render. simpl. rewrite !elem_of_app. auto. Qed.


End encoding.



(** X9: in a run that gets as far as the [try] (the working directory is
    found and the scanning message printed), over a tree that nests no
    deeper than the stack allows and in which no listing fails except by
    [FileNotFoundError]: when a displayed entry has a name with a code
    point that is not a scalar value (an undecodable byte in a file name
    arrives as a lone surrogate), and the output file can be opened, the
    run reports [UnicodeEncodeError] after the file has been truncated:
    the output file is left empty, whatever it held. *)
Theorem X9_unencodable_name_empties_the_file (l : launch) (r : row) (c : N) :
  let w := surroundings l in
  getcwd_fault l = None → first_print_fault l = None →
  silent (at_path (cwd w)) = true →
  height (at_path (cwd w)) ≤ WALK_DEPTH →
  r ∈ rows (at_path (cwd w)) → c ∈ row_name r → scalar c = false →
  open_fault w = None →
  script l = (None, main w) ∧
  printed w
  = [ Scanning (os_path_basename (os_path_abspath (cwd w)));
      ErrorOccurred UnicodeEncodeError ] ∧
  disk (main w) !! OUTPUT_FILENAME = Some [] ∧
  ¬ reports_success w.
Proof.
  intros w Hcwd Hfirst Hs Hh Hr Hc Hbad Ho.
  pose proof (generate_tree_rows _ Hs Hh) as Hg.
  assert (Utf8.encode
            (join NEWLINE (header (cwd w)
               :: map (render []) (rows (at_path (cwd w))))) = None) as He.
  { destruct (Utf8.encode _) as [data|] eqn:He; [|done].
    assert (scalar c = true); [|congruence].
    apply (proj1 (encode_is_Some _) (mk_is_Some _ _ He)).
    apply (join_elem_of _ _ (render [] r)).
    - right. apply list_elem_of_fmap. by exists r.
    - by apply row_name_elem_of. }
  destruct (main_run w) as (said & Hp & Hrun).
  rewrite Hg, Ho, He in Hrun. destruct Hrun as [-> Hd].
  split_and!; [|done| |].
  - unfold script. fold w. by rewrite Hcwd, Hfirst.
  - rewrite Hd. apply lookup_insert_eq.
  - unfold reports_success. rewrite Hp.
    intros [?|[?|?%elem_of_nil]%elem_of_cons]%elem_of_cons; done.
Qed.

Lemma X9_unencodable_name_empties_the_file_witness :
  let root := Location (u "/home/me/root")
                (Dir [(u "caf" ++ [0xDCE9%N], File); (u "a.txt", File)]) in
  let w := World root
             (<[OUTPUT_FILENAME := list_byte_of_string "old"]> ∅)
             None None [] in
  scalar 0xDCE9 = false ∧
  height (at_path (cwd w)) ≤ WALK_DEPTH ∧
  disk w !! OUTPUT_FILENAME = Some (list_byte_of_string "old") ∧
  disk (main w) !! OUTPUT_FILENAME = Some [] ∧
  ¬ reports_success w.
Proof.
  intros root w.
  assert (height (at_path (cwd w)) ≤ WALK_DEPTH) as Hh by (vm_compute; lia).
  destruct (X9_unencodable_name_empties_the_file (Launch None None w)
              (Row [] true (u "caf" ++ [0xDCE9%N])) 0xDCE9%N)
    as (_ & _ & Hd & Hn).
  - reflexivity.
  - reflexivity.
  - reflexivity.
  - exact Hh.
  - vm_compute. right. left.
  - vm_compute. do 3 right. left.
  - reflexivity.
  - reflexivity.
  - split_and!; [reflexivity|exact Hh|reflexivity|exact Hd|exact Hn].
Defined.

(** ** The header *)

Section basename.

Lemma rfind_spec (c : N) (s : list N) (i : Z) :
  (0 ≤ i)%Z →
  ((c ∉ s) ∧ rfind c s i = (-1)%Z) ∨
  (∃ a b, s = a ++ c :: b ∧ (c ∉ b) ∧
          rfind c s i = (i + Z.of_nat (length a))%Z).
Proof.
  revert i. induction s as [|x s IH]; intros i Hi.
  - left. split; [by intros ?%elem_of_nil|done].
  - simpl. destruct (IH (i + 1)%Z ltac:(lia)) as [[Hnot ->]|(a & b & -> & Hb & ->)].
    + simpl. destruct (N.eqb_spec x c) as [->|Hne].
      * right. exists [], s. split_and!; [done..|]. simpl. lia.
      * left. split; [|done]. by intros [?|?]%elem_of_cons.
    + right. exists (x :: a), b. split_and!; [done..|].
      destruct (Z.leb_spec 0 (i + 1 + Z.of_nat (length a))); simpl length; lia.
Qed.

Lemma basename_spec (p : list N) :
  (SLASH ∉ os_path_basename p) ∧
  (p = os_path_basename p ∨ ∃ dir, p = dir ++ SLASH :: os_path_basename p).
Proof.
  unfold os_path_basename.
  destruct (rfind_spec SLASH p 0 ltac:(lia)) as [[Hnot ->]|(a & b & -> & Hb & ->)].
  - simpl. split; [done|by left].
  - replace (Z.to_nat (0 + Z.of_nat (length a) + 1)) with (length a + 1) by lia.
    rewrite <- drop_drop, drop_app_length. simpl. rewrite drop_0.
    split; [done|]. right. by exists a.
Qed.

End basename.

(** X10: the first line of every rendering is a name followed by one
    slash; the name holds no slash, and the absolute path of the root is
    that name or ends with a slash and that name.  A root path that ends in
    a slash (the file system root) gives the bare line ["/"]. *)
Theorem X10_header_shape (root_dir : location) :
  ∃ name,
    name = os_path_basename (os_path_abspath root_dir) ∧
    (SLASH ∉ name) ∧
    (os_path_abspath root_dir = name ∨
     ∃ dir, os_path_abspath root_dir = dir ++ u "/" ++ name) ∧
    (last (os_path_abspath root_dir) = Some SLASH → name = []) ∧
    ∀ lines, tree_lines root_dir = Return lines →
      ∃ rest, lines = (name ++ u "/") :: rest.
Proof.
  exists (os_path_basename (os_path_abspath root_dir)).
  destruct (basename_spec (os_path_abspath root_dir)) as [Hno Hsplit].
  split_and!; [done..| |].
  - intros Hlast.
    destruct (os_path_basename (os_path_abspath root_dir)) as [|c b] eqn:Hb;
      [done|].
    assert (last (c :: b) = Some SLASH) as Hl.
    { destruct Hsplit as [<-|[dir Hd]]; [done|].
      rewrite Hd in Hlast. by rewrite last_app_cons in Hlast. }
    apply last_Some_elem_of in Hl. done.
  - intros lines Hl%tree_lines_Return. eauto.
Qed.

Lemma X10_header_shape_witness :
  (∃ rest, tree_lines (Location (u "/home/me/root") (Dir example_entries))
           = Return ((u "root" ++ u "/") :: rest)) ∧
  tree_lines (Location (u "/") (Dir [(u "etc", File)]))
  = Return [u "/"; u "└── etc"].
Proof.
  split; [|reflexivity].
  destruct (X10_header_shape (Location (u "/home/me/root") (Dir example_entries)))
    as (name & -> & _ & _ & _ & H).
  assert (tree_lines (Location (u "/home/me/root") (Dir example_entries))
          = Return [ u "root/"; u "├── a.txt"; u "├── b.txt"; u "└── sub";
                     u "    └── c.txt" ]) as Hl by reflexivity.
  destruct (H _ Hl) as [rest Hrest].
  exists rest. rewrite Hl. f_equal. exact Hrest.
Defined.

(** ** The order of a listing *)

Section listing_order.

Lemma items_Permutation (names1 names2 : list (list N)) :
  names1 ≡ₚ names2 →
  sorted (filter not_ignored names1) = sorted (filter not_ignored names2).
Proof. intros Hp. apply sorted_unique. by rewrite Hp. Qed.

Lemma height_listed (t : node) (names : list (list N)) (item : list N) :
  os_listdir t = inr names → item ∈ names → 2 ≤ height t.
Proof.
  destruct t as [| |entries|e]; try done. intros [= <-].
  intros (e & _ & He)%list_elem_of_fmap.
  pose proof (height_entry _ _ He). pose proof (height_pos e.2). lia.
Qed.

Lemma walk_dir_alike (n fuel : nat) (t1 t2 : node) (prefix : list N)
    (lines : list (list N)) :
  alike n t1 t2 → height t1 ≤ n →
  walk_dir fuel t1 prefix lines = walk_dir fuel t2 prefix lines.
Proof.
  revert n t1 t2 prefix lines.
  induction fuel as [|fuel IH]; intros n t1 t2 prefix lines Ha Hn; [done|].
  destruct n as [|n]; [pose proof (height_pos t1); lia|].
  destruct Ha as [_ Ha]. simpl.
  destruct (os_listdir t1) as [e1|names1] eqn:Hl1,
           (os_listdir t2) as [e2|names2] eqn:Hl2; try done.
  { by subst e2. }
  destruct Ha as [Hp Hbelow]. rewrite <- (items_Permutation _ _ Hp).
  apply for_each_ext.
  intros [pointer item] ls Hin%elem_of_zip_pointers.
  apply elem_of_sorted, list_elem_of_filter in Hin as [_ Hin].
  pose proof (height_listed _ _ _ Hl1 Hin) as Htwo.
  specialize (Hbelow item Hin).
  destruct n as [|n]; [lia|]. pose proof Hbelow as [Hdir _].
  unfold loop_body. rewrite !bind_append, <- Hdir.
  destruct (os_path_isdir (os_path_join t1 item)) eqn:Hd1; [|done].
  apply height_child in Hd1.
  apply (IH (S n)); [done|lia].
Qed.

Lemma entry_named_Some_None {A} (item : list N) (entries : list (list N * A)) :
  entry_named item entries = None → item ∉ entries.*1.
Proof.
  induction entries as [|[nm x] rest IH]; [by intros _ ?%elem_of_nil|].
  simpl. destruct (decide (nm = item)); [done|].
  intros Hn [?|?]%elem_of_cons; [done|]. by apply IH.
Qed.

Lemma entry_named_Permutation {A} (item : list N)
    (es es' : list (list N * A)) :
  NoDup es.*1 → es ≡ₚ es' → entry_named item es = entry_named item es'.
Proof.
  intros Hnd Hp.
  destruct (entry_named item es) as [x|] eqn:He.
  - symmetry. apply entry_named_NoDup.
    + by rewrite <- Hp.
    + rewrite <- Hp. by apply entry_named_elem.
  - symmetry. apply entry_named_None. rewrite <- Hp.
    by apply entry_named_Some_None.
Qed.

Lemma alike_refl (n : nat) (t : node) : alike n t t.
Proof.
  revert t. induction n as [|n IH]; intros t; [done|].
  split; [done|]. destruct (os_listdir t); [done|]. split; [done|auto].
Qed.

Lemma alike_shuffle (n : nat) (es es' : list (list N * node)) :
  NoDup es.*1 → es ≡ₚ es' → alike n (Dir es) (Dir es').
Proof.
  intros Hnd Hp. destruct n as [|n]; [done|]. split; [done|]. simpl.
  split; [by rewrite Hp|]. intros item _.
  rewrite (entry_named_Permutation item es es' Hnd Hp). apply alike_refl.
Qed.

End listing_order.

(** X11: the rendering does not depend on the order in which the operating
    system lists a directory: two roots with the same base name about
    which [isdir] and [listdir] answer alike, up to the order of the names,
    all the way down, are rendered alike, exceptions included.  In
    particular, shuffling the root listing (no name twice) changes
    nothing. *)
Theorem X11_listing_order_is_immaterial (r1 r2 : location) :
  os_path_basename (os_path_abspath r1) = os_path_basename (os_path_abspath r2) →
  (alike (height (at_path r1)) (at_path r1) (at_path r2) ∨
   ∃ es es', at_path r1 = Dir es ∧ at_path r2 = Dir es' ∧
             NoDup es.*1 ∧ es ≡ₚ es') →
  generate_tree r1 = generate_tree r2.
Proof.
  intros Hname Ha.
  assert (alike (height (at_path r1)) (at_path r1) (at_path r2)) as Halike.
  { destruct Ha as [?|(es & es' & -> & -> & Hnd & Hp)]; [done|].
    by apply alike_shuffle. }
  unfold generate_tree, tree_lines. rewrite !bind_append, Hname.
  by rewrite (walk_dir_alike (height (at_path r1)) WALK_DEPTH
                (at_path r1) (at_path r2)).
Qed.

Lemma X11_listing_order_is_immaterial_witness :
  generate_tree (Location (u "/mnt/copy/root") (Dir (rev example_entries)))
  = generate_tree (Location (u "/home/me/root") (Dir example_entries)).
Proof.
  apply X11_listing_order_is_immaterial; [reflexivity|].
  right. exists (rev example_entries), example_entries.
  split_and!; [reflexivity|reflexivity| |].
  - vm_compute. repeat constructor;
      intros H; repeat (apply elem_of_cons in H as [H|H]; [done|]);
      by apply elem_of_nil in H.
  - symmetry. apply Permutation_rev.
Defined.

(** ** Files and empty directories *)

Section hollow_children.

Lemma entry_named_app {A} (item : list N) (before after : list (list N * A)) :
  entry_named item (before ++ after)
  = match entry_named item before with
    | Some n => Some n
    | None => entry_named item after
    end.
Proof.
  induction before as [|[nm x] rest IH]; [done|]. simpl.
  by destruct (decide (nm = item)).
Qed.

Lemma entry_named_cons {A} (item nm : list N) (x : A)
    (rest : list (list N * A)) :
  entry_named item ((nm, x) :: rest)
  = if decide (nm = item) then Some x else entry_named item rest.
Proof. reflexivity. Qed.

(** What the loop does with a hollow child after its line: nothing. *)
Lemma hollow_step (fuel : nat) (x : node) (prefix : list N)
    (lines : list (list N)) :
  hollow x = true →
  (if os_path_isdir x then walk_dir (S fuel) x prefix else mret ()) lines
  = Return ((), lines).
Proof.
  unfold hollow. intros Hh. destruct (os_path_isdir x); [|done].
  simpl in *. destruct (os_listdir x) as [e|names].
  - by apply bool_decide_eq_true in Hh as ->.
  - apply bool_decide_eq_true in Hh. by rewrite Hh.
Qed.

Lemma walk_dir_hollow_swap (fuel : nat) (before after : list (list N * node))
    (name : list N) (x y : node) (prefix : list N) (lines : list (list N)) :
  hollow x = true → hollow y = true →
  walk_dir (S (S fuel)) (Dir (before ++ (name, x) :: after)) prefix lines
  = walk_dir (S (S fuel)) (Dir (before ++ (name, y) :: after)) prefix lines.
Proof.
  intros Hx Hy.
  change (for_each (zip (pointers (items_of (Dir (before ++ (name, x) :: after))))
                      (items_of (Dir (before ++ (name, x) :: after))))
            (loop_body (walk_dir (S fuel)) (Dir (before ++ (name, x) :: after))
               prefix) lines
          = for_each (zip (pointers (items_of (Dir (before ++ (name, y) :: after))))
                        (items_of (Dir (before ++ (name, y) :: after))))
              (loop_body (walk_dir (S fuel)) (Dir (before ++ (name, y) :: after))
                 prefix) lines).
  assert (items_of (Dir (before ++ (name, x) :: after))
          = items_of (Dir (before ++ (name, y) :: after))) as ->.
  { rewrite !items_of_Dir. by rewrite !fmap_app, !fmap_cons. }
  apply for_each_ext. intros [pointer item] ls _.
  unfold loop_body. rewrite !bind_append. unfold os_path_join.
  rewrite !entry_named_app, !entry_named_cons.
  destruct (entry_named item before) as [n|]; [done|].
  destruct (decide (name = item)); [|done].
  change (default Missing (Some x)) with x.
  change (default Missing (Some y)) with y.
  by rewrite (hollow_step fuel x), (hollow_step fuel y).
Qed.

End hollow_children.

(** X12: below its own line a child shows the same, namely nothing,
    whether it is a file, a dangling link, an empty directory, a directory
    holding only ignored names, or a directory that vanished before it was
    listed: exchanging one such child for another under the same name
    changes neither a visit nor the rendering. *)
Theorem X12_files_and_empty_directories_look_alike (abspath : list N)
    (before after : list (list N * node)) (name : list N) (x y : node) :
  hollow x = true → hollow y = true →
  (∀ fuel prefix lines,
     walk_dir (S (S fuel)) (Dir (before ++ (name, x) :: after)) prefix lines
     = walk_dir (S (S fuel)) (Dir (before ++ (name, y) :: after)) prefix lines) ∧
  generate_tree (Location abspath (Dir (before ++ (name, x) :: after)))
  = generate_tree (Location abspath (Dir (before ++ (name, y) :: after))).
Proof.
  intros Hx Hy. split.
  - intros fuel prefix lines. by apply walk_dir_hollow_swap.
  - set (t1 := Dir (before ++ (name, x) :: after)).
    set (t2 := Dir (before ++ (name, y) :: after)).
    unfold generate_tree, tree_lines. rewrite !bind_append, WALK_DEPTH_eq.
    cbn [at_path os_path_abspath].
    by rewrite (walk_dir_hollow_swap _ before after name x y).
Qed.

Lemma X12_files_and_empty_directories_look_alike_witness :
  hollow File = true ∧
  hollow (Dir [(u ".git", Dir [(u "HEAD", File)])]) = true ∧
  generate_tree
    (Location (u "/home/me/root")
       (Dir ([(u "b.txt", File)] ++ (u "a.txt", File)
             :: [(u "sub", Dir [(u "c.txt", File)])])))
  = generate_tree
      (Location (u "/home/me/root")
         (Dir ([(u "b.txt", File)]
               ++ (u "a.txt", Dir [(u ".git", Dir [(u "HEAD", File)])])
               :: [(u "sub", Dir [(u "c.txt", File)])]))).
Proof.
  split_and!; [reflexivity..|].
  apply X12_files_and_empty_directories_look_alike; reflexivity.
Defined.

(** ** Reading the file back *)

Section round_trip.

Lemma all_from_sound (d : nat) (lo : N) (f : N → bool) (c : N) :
  all_from d lo f = true → (lo ≤ c < lo + 2 ^ N.of_nat d)%N → f c = true.
Proof.
  revert lo. induction d as [|d IH]; intros lo Hall Hc.
  - simpl in *. replace c with lo by lia. done.
  - simpl in Hall. apply andb_true_iff in Hall as [H1 H2].
    rewrite Nat2N.inj_succ, N.pow_succ_r' in Hc.
    destruct (N.lt_ge_cases c (lo + 2 ^ N.of_nat d)).
    + apply (IH lo); [done|lia].
    + apply (IH (lo + 2 ^ N.of_nat d)%N); [done|lia].
Qed.

Lemma every_scalar_checked : all_from 21 0 round_trips = true.
Proof. vm_compute. reflexivity. Qed.

Lemma round_trips_all (c : N) : round_trips c = true.
Proof.
  destruct (N.lt_ge_cases c (2 ^ 21)) as [Hlt|Hge].
  - apply (all_from_sound 21 0); [apply every_scalar_checked|].
    change (N.of_nat 21) with 21%N. lia.
  - unfold round_trips, Utf8.encode_char.
    change (2 ^ 21)%N with 0x200000%N in Hge.
    destruct (N.ltb_spec c 0x80), (N.ltb_spec c 0x800),
      (N.ltb_spec c 0x10000), (N.ltb_spec c 0x110000); first [lia|done].
Qed.

Lemma decode_char (c : N) (bs : list N) (fuel : nat) (rest : list N) :
  Utf8.encode_char c = Some bs →
  Forall (λ b, (b < 256)%N) bs ∧ bs ≠ [] ∧
  Utf8.decode_aux (S fuel) (bs ++ rest) = c :: Utf8.decode_aux fuel rest.
Proof.
  intros He. pose proof (round_trips_all c) as Hc.
  unfold round_trips in Hc. rewrite He in Hc.
  apply andb_true_iff in Hc as [[Hb Hlen]%andb_true_iff Hdec].
  apply bool_decide_eq_true in Hlen, Hdec.
  split_and!.
  - apply Forall_forall. intros b Hin.
    apply (forallb_elem _ _ _ Hb) in Hin. by apply N.ltb_lt.
  - intros ->. unfold lead_class in Hlen. simpl in Hlen.
    by repeat case_match.
  - destruct bs as [|b0 bs]; [by vm_compute in Hlen|].
    unfold lead_class in Hlen. simpl hd in Hlen. simpl length in Hlen.
    cbn [Utf8.decode_aux app] in Hdec |- *.
    destruct (N.ltb b0 0x80) eqn:H80.
    { destruct bs; [|simpl in Hlen; lia]. by injection Hdec as ->. }
    destruct bs as [|b1 bs]; [repeat case_match; simpl in Hlen; lia|].
    cbn [Utf8.decode_aux app] in Hdec |- *.
    destruct (N.ltb b0 0xE0) eqn:HE0.
    { destruct bs; [|simpl in Hlen; lia]. by injection Hdec as ->. }
    destruct bs as [|b2 bs]; [repeat case_match; simpl in Hlen; lia|].
    cbn [Utf8.decode_aux app] in Hdec |- *.
    destruct (N.ltb b0 0xF0) eqn:HF0.
    { destruct bs; [|simpl in Hlen; lia]. by injection Hdec as ->. }
    destruct bs as [|b3 bs]; [simpl in Hlen; lia|].
    cbn [Utf8.decode_aux app] in Hdec |- *.
    destruct bs; [|simpl in Hlen; lia]. by injection Hdec as ->.
Qed.

Lemma byte_value_to_byte (b : N) :
  (b < 256)%N → byte_value (Utf8.to_byte b) = b.
Proof.
  intros Hb. unfold byte_value, Utf8.to_byte.
  rewrite ascii_of_byte_of_ascii. by apply N_ascii_embedding.
Qed.

Lemma decode_encode (s : list N) (data : list byte) (fuel : nat) :
  Utf8.encode s = Some data → length data ≤ fuel →
  Utf8.decode_aux fuel (map byte_value data) = s.
Proof.
  revert data fuel. induction s as [|c s IH]; intros data fuel.
  - intros [= <-] _. by destruct fuel.
  - simpl. destruct (Utf8.encode_char c) as [bs|] eqn:Hc; [|done].
    destruct (Utf8.encode s) as [rest|] eqn:Hs; [|done].
    intros [= <-] Hlen.
    destruct fuel as [|fuel].
    { destruct (decode_char c bs 0 [] Hc) as (_ & Hne & _).
      destruct bs; [done|]. simpl in Hlen. lia. }
    destruct (decode_char c bs fuel (map byte_value rest) Hc)
      as (Hb & Hne & Hdec).
    rewrite map_app, map_map.
    assert (map (λ x, byte_value (Utf8.to_byte x)) bs = bs) as ->.
    { clear -Hb. induction Hb as [|b bs Hlt _ IHb]; [done|].
      simpl. by rewrite byte_value_to_byte, IHb. }
    rewrite Hdec. f_equal. apply (IH rest fuel eq_refl).
    rewrite length_app, length_map in Hlen.
    destruct bs; [done|]. simpl in Hlen. lia.
Qed.

End round_trip.

(** X13: the codec loses nothing: bytes the strict UTF-8 encoder produced
    decode to the very string that was encoded, so two different strings
    never give the same bytes; after a run that reports success, reading
    the output file back gives the string the renderer returned. *)
Theorem X13_the_file_reads_back (s : list N) (data : list byte) :
  Utf8.encode s = Some data →
  decode_bytes data = s ∧
  (∀ s', Utf8.encode s' = Some data → s' = s) ∧
  ∀ w, reports_success w → generate_tree (cwd w) = Return s →
    decode_bytes <$> disk (main w) !! OUTPUT_FILENAME = Some s.
Proof.
  intros He.
  assert (∀ t d, Utf8.encode t = Some d → decode_bytes d = t) as Hrt.
  { intros t d Ht. unfold decode_bytes, Utf8.decode.
    apply decode_encode; [done|]. by rewrite length_map. }
  split_and!.
  - by apply Hrt.
  - intros s' He'. by rewrite <- (Hrt _ _ He'), (Hrt _ _ He).
  - intros w (text & data' & Hg & He' & _ & _ & Hd & _)%success_run Hs.
    rewrite Hg in Hs. injection Hs as ->.
    rewrite Hd, lookup_insert_eq. simpl. f_equal. by apply Hrt.
Qed.

Lemma X13_the_file_reads_back_witness :
  decode_bytes <$> disk (main stale_world) !! OUTPUT_FILENAME
  = Some example_text.
Proof.
  assert (reports_success stale_world) as Hs.
  { unfold reports_success.
    assert (printed stale_world
            = Scanning (u "root") :: success_messages example_text) as ->
      by (by vm_compute).
    right. left. }
  assert (∃ data, Utf8.encode example_text = Some data) as [data He]
    by (eexists; by vm_compute).
  destruct (X13_the_file_reads_back example_text data He) as (_ & _ & H).
  apply (H stale_world Hs). reflexivity.
Defined.
